(** * jpegutil: a shallow embedding of the JPEG metadata editor

    The Go package validates a JPEG stream by its SOI/EOI markers
    ([Assert]), walks the segment chain up to the first DQT marker
    ([seekToDQT]) and splices a freshly built EXIF APP1 segment in front
    of the remainder of the stream ([SetMeta], called [ReplaceMeta] in the
    later revision of the file).

    Conventions of the embedding:
    - a byte is [Byte.byte]; a Go [string] or [[]byte] is a [list byte];
    - Go's [int] and [int64] are [Z]; the sizes added up here are lengths of
      values held in memory, far below 2^63, so the additions are exact; the
      conversions [uint16(n)] and [uint32(n)], which do truncate, are
      written out;
    - an [io.ReadSeeker] is an in-memory stream with a cursor, following
      the contract of [bytes.Reader] and of regular files;
    - a Go function returning [(T, error)] returns an [outcome T]; a panic
      is an outcome of its own;
    - the unspecified iteration order of [range md] is an explicit
      argument. *)

From Stdlib Require Import ZArith List Lia.
From Stdlib Require Import Strings.Byte.
From stdpp Require Import base list gmap sorting.

Local Open Scope Z_scope.

Abbreviation byte := Byte.byte.

#[global] Instance byte_eq_decision : EqDecision byte := Byte.byte_eq_dec.

(** ** Integer and byte conversions *)

(** Go's [byte(v)]: the low eight bits of [v]. *)
Definition byte_of_Z (v : Z) : byte :=
  default x00 (Byte.of_N (Z.to_N (v mod 256))).

Definition Z_of_byte (b : byte) : Z := Z.of_N (Byte.to_N b).

Definition uint16 (n : Z) : Z := n mod 2 ^ 16.
Definition uint32 (n : Z) : Z := n mod 2 ^ 32.

(** [len(x)] as a Go [int]. *)
Definition len {A} (l : list A) : Z := Z.of_nat (length l).

(** [bytes.Equal]. *)
Definition bytes_Equal (a b : list byte) : bool := bool_decide (a = b).

(** ** Marker tables *)

Definition soi : list byte := [xff; xd8].
Definition app1 : list byte := [xff; xe1].
Definition exif : list byte := [x45; x78; x69; x66; x00; x00].
Definition tiff : list byte := [x4d; x4d; x00; x2a; x00; x00; x00; x08].
Definition ifd0Next : list byte := [x00; x00; x00; x00].
Definition dqt : list byte := [xff; xdb].
Definition segPad : list byte := [x00; x00].
Definition eoi : list byte := [xff; xd9].

(** ** Errors and outcomes *)

Inductive error : Type :=
  | EOF                    (* io.EOF *)
  | ErrNegativePosition    (* Seek to a negative position *)
  | ErrMissingSOI          (* jpegutil: missing SOI marker *)
  | ErrMissingEOI          (* jpegutil: missing EOI marker *)
  | ErrNoSegmentHeader     (* jpegutil: couldn't read next segment marker and length *)
  | ErrSegmentTooSmall     (* jpegutil: reported segment length too small *)
  | ErrApp1TooLong.        (* jpegutil: APP1 segment is too long *)

#[global] Instance error_eq_decision : EqDecision error.
Proof. solve_decision. Defined.

(** [errors.Is(err, io.EOF)]. *)
Definition is_EOF (e : error) : bool := bool_decide (e = EOF).


Inductive outcome (A : Type) : Type :=
  | Ok (a : A)          (* returned normally, [err == nil] *)
  | Err (e : error)     (* returned a non-nil error *)
  | Panic               (* run-time panic *)
  | OutOfFuel.          (* the loop budget of the model ran out *)
Arguments Ok {A} a.
Arguments Err {A} e.
Arguments Panic {A}.
Arguments OutOfFuel {A}.

#[global] Instance outcome_ret : MRet outcome := @Ok.
#[global] Instance outcome_bind : MBind outcome := fun A B f m =>
  match m with
  | Ok a => f a
  | Err e => Err e
  | Panic => Panic
  | OutOfFuel => OutOfFuel
  end.

(** ** Streams: io.ReadSeeker *)

(** The stream holds its bytes and a cursor.  [rs_eofWithData] selects
    between the two behaviours io.Reader allows at the end of the input:
    [false] returns the last bytes with a nil error and io.EOF on the
    next call (bytes.Reader, files); [true] returns io.EOF together with
    the last bytes. *)
Record ReadSeeker : Type := mkRS {
  rs_data : list byte;
  rs_pos : Z;
  rs_eofWithData : bool
}.

Definition NewReader (s : list byte) : ReadSeeker := mkRS s 0 false.

Inductive whence : Type := SeekStart | SeekCurrent | SeekEnd.

Definition Seek (rs : ReadSeeker) (offset : Z) (w : whence) : outcome ReadSeeker :=
  let abs :=
    match w with
    | SeekStart => offset
    | SeekCurrent => rs_pos rs + offset
    | SeekEnd => len (rs_data rs) + offset
    end in
  if abs <? 0 then Err ErrNegativePosition
  else Ok (mkRS (rs_data rs) abs (rs_eofWithData rs)).

(** [rs.Read(p)]: the count and error returned, the buffer after the
    call, and the stream after the call. *)
Definition Read (rs : ReadSeeker) (p : list byte)
  : Z * option error * list byte * ReadSeeker :=
  if len (rs_data rs) <=? rs_pos rs then (0, Some EOF, p, rs)
  else
    let src := drop (Z.to_nat (rs_pos rs)) (rs_data rs) in
    let n := Nat.min (length p) (length src) in
    let pos := rs_pos rs + Z.of_nat n in
    (Z.of_nat n,
     if rs_eofWithData rs && (len (rs_data rs) <=? pos) then Some EOF else None,
     take n src ++ drop n p,
     mkRS (rs_data rs) pos (rs_eofWithData rs)).

(** The reader returned by [io.MultiReader(bytes.NewReader(head), rs)]:
    it yields [head] and then whatever [rs] yields from its cursor on. *)
Record Reader : Type := MultiReader {
  rd_head : list byte;
  rd_tail : ReadSeeker
}.

(** Draining the composed reader. *)
Definition ReadAll (r : Reader) : list byte :=
  rd_head r ++ drop (Z.to_nat (rs_pos (rd_tail r))) (rs_data (rd_tail r)).

(** ** Assert *)

Definition Assert (rs : ReadSeeker) : outcome ReadSeeker :=
  rs ← Seek rs 0 SeekStart;
  let p := [x00; x00] in
  let '(_, err, p, rs) := Read rs p in
  match err with
  | Some e => Err e
  | None =>
    if negb (bytes_Equal p soi) then Err ErrMissingSOI else
    rs ← Seek rs (-2) SeekEnd;
    let '(_, err, p, rs) := Read rs p in
    match err with
    | Some e =>
      if negb (is_EOF e) then Err e
      else if negb (bytes_Equal p eoi) then Err ErrMissingEOI else Ok rs
    | None =>
      if negb (bytes_Equal p eoi) then Err ErrMissingEOI else Ok rs
    end
  end.

(** ** scratch *)

Abbreviation scratch := (list byte).

(** A slice expression [p[lo:hi]]; out of range it panics. *)
Definition slice (p : list byte) (lo hi : nat) : outcome (list byte) :=
  if (length p <? hi)%nat then Panic else Ok (take (hi - lo) (drop lo p)).

(** encoding/binary, big endian. *)
Definition PutUint16 (b : list byte) (v : Z) : outcome (list byte) :=
  if (length b <? 2)%nat then Panic
  else Ok (<[1%nat := byte_of_Z v]> (<[0%nat := byte_of_Z (Z.shiftr v 8)]> b)).

Definition PutUint32 (b : list byte) (v : Z) : outcome (list byte) :=
  if (length b <? 4)%nat then Panic
  else Ok (<[3%nat := byte_of_Z v]>
          (<[2%nat := byte_of_Z (Z.shiftr v 8)]>
          (<[1%nat := byte_of_Z (Z.shiftr v 16)]>
          (<[0%nat := byte_of_Z (Z.shiftr v 24)]> b)))).

Definition Uint16 (b : list byte) : outcome Z :=
  match b with
  | b0 :: b1 :: _ => Ok (Z.lor (Z_of_byte b1) (Z.shiftl (Z_of_byte b0) 8))
  | _ => Panic
  end.

(** [p.bytes(n, byteCount)]: the slice returned and the scratch after
    the call. *)
Definition scratch_bytes (p : scratch) (n byteCount : Z)
  : outcome (list byte * scratch) :=
  if byteCount =? 2 then
    p ← PutUint16 p (uint16 n);
    r ← slice p 0 2;
    Ok (r, p)
  else if byteCount =? 4 then
    p ← PutUint32 p (uint32 n);
    Ok (p, p)
  else Panic.

(** ** seekToDQT *)

Section Scanner.

(** The floor on the remaining segment length: 8 in the revision that
    defines [SetMeta], 6 in the one that defines [ReplaceMeta]. *)
Variable minSegLen : Z.

Fixpoint seekLoop (fuel : nat) (p : scratch) (rs : ReadSeeker)
  : outcome ReadSeeker :=
  match fuel with
  | O => OutOfFuel
  | S fuel =>
    let '(n, err, p, rs) := Read rs p in
    match err with
    | Some e => Err e
    | None =>
      if negb (n =? 4) then Err ErrNoSegmentHeader else
      m ← slice p 0 2;
      if bytes_Equal m dqt then Ok rs else
      l ← slice p 2 4;
      u ← Uint16 l;
      let segLen := u - 2 in
      if segLen <? minSegLen then Err ErrSegmentTooSmall else
      rs ← Seek rs segLen SeekCurrent;
      seekLoop fuel p rs
    end
  end.

(** Every turn of the loop that goes on moves the cursor forward, so
    one more turn than the stream has bytes is a budget the loop
    cannot use up (see [seekLoop_fuel]). *)
Definition seekToDQT (p : scratch) (rs : ReadSeeker) : outcome ReadSeeker :=
  rs ← Seek rs 2 SeekStart;
  rs ← seekLoop (S (length (rs_data rs))) p rs;
  Seek rs (-4) SeekCurrent.

End Scanner.

(** ** Metadata *)

Abbreviation tag := Z (only parsing).

Definition MetaArtist : tag := 0.
Definition MetaTitle : tag := 1.
Definition MetaCopyright : tag := 2.

(** First two bytes are tag, second two are type. *)
Definition tagMarker : gmap Z (list byte) :=
  <[MetaArtist := [x01; x3b; x00; x02]]>
  (<[MetaTitle := [x01; x0e; x00; x02]]>
  (<[MetaCopyright := [x82; x98; x00; x02]]> ∅)).

Abbreviation MetaData := (gmap Z (list byte)) (only parsing).

(** [sort.Ints]. *)
Definition sort_Ints (l : list Z) : list Z := merge_sort Z.le l.

(** The variables the entry loop of [SetMeta] updates. *)
Record encoder : Type := mkEnc {
  enc_buf : list byte;
  enc_data : list byte;
  enc_ifdOffset : Z;
  enc_p : scratch
}.

Fixpoint writeEntries (md : MetaData) (sorted : list Z) (st : encoder)
  : outcome encoder :=
  match sorted with
  | [] => Ok st
  | t :: sorted =>
    let buf := enc_buf st ++ tagMarker !!! t in
    let newData := md !!! t ++ [x00] in
    let data := enc_data st ++ newData in
    '(b, p) ← scratch_bytes (enc_p st) (len newData) 4;
    let buf := buf ++ b in
    '(b, p) ← scratch_bytes p (enc_ifdOffset st) 4;
    let buf := buf ++ b in
    writeEntries md sorted (mkEnc buf data (enc_ifdOffset st + len newData) p)
  end.

Section Encoder.

Variable minSegLen : Z.

(** [range] is the order in which [for t, v := range md] visits the
    map. *)
Definition SetMetaRange (range : list (Z * list byte))
    (rs : ReadSeeker) (md : MetaData) : outcome Reader :=
  rs ← Assert rs;
  let p : scratch := [x00; x00; x00; x00] in
  if Z.of_nat (size md) =? 0 then
    rs ← seekToDQT minSegLen p rs;
    Ok (MultiReader soi rs)
  else
    let ifdOffset := 0 in
    let ifdOffset := ifdOffset + len tiff in
    let ifdOffset := ifdOffset + 2 in
    let ifdOffset := ifdOffset + Z.of_nat (size md) * 12 in
    let ifdOffset := ifdOffset + len ifd0Next in
    let app1Len := 0 in
    let app1Len := app1Len + 4 in
    let app1Len := app1Len + len exif in
    let app1Len := app1Len + ifdOffset in
    let '(app1Len, sorted) :=
      fold_left (fun '(a, s) '(t, v) => (a + (len v + 1), s ++ [t]))
                range (app1Len, []) in
    let sorted := sort_Ints sorted in
    if 1024 * 64 <? app1Len then Err ErrApp1TooLong else
    let buf := soi in
    let buf := buf ++ app1 in
    '(b, p) ← scratch_bytes p app1Len 2;
    let buf := buf ++ b in
    let buf := buf ++ exif in
    let buf := buf ++ tiff in
    '(b, p) ← scratch_bytes p (Z.of_nat (size md)) 2;
    let buf := buf ++ b in
    st ← writeEntries md sorted (mkEnc buf [] ifdOffset p);
    let buf := enc_buf st ++ ifd0Next in
    let buf := buf ++ enc_data st in
    let buf := buf ++ segPad in
    rs ← seekToDQT minSegLen (enc_p st) rs;
    Ok (MultiReader buf rs).

End Encoder.

(** The two revisions of the file. *)
Definition SetMeta (range : list (Z * list byte)) := SetMetaRange 8 range.
Definition ReplaceMeta (range : list (Z * list byte)) := SetMetaRange 6 range.

(** * Properties *)

(** ** Bytes and big-endian integers *)

Lemma Z_of_byte_range (b : byte) : 0 <= Z_of_byte b < 256.
Proof.
  unfold Z_of_byte. pose proof (Byte.to_N_bounded b). lia.
Qed.

Lemma Z_of_byte_of_Z (v : Z) : Z_of_byte (byte_of_Z v) = v mod 256.
Proof.
  unfold Z_of_byte, byte_of_Z.
  assert (Hr : 0 <= v mod 256 < 256) by (apply Z.mod_pos_bound; lia).
  destruct (Byte.of_N (Z.to_N (v mod 256))) as [b|] eqn:E; simpl.
  - apply Byte.to_of_N in E. rewrite E. lia.
  - apply Byte.of_N_None_iff in E. lia.
Qed.

Lemma byte_of_Z_of_byte (b : byte) : byte_of_Z (Z_of_byte b) = b.
Proof.
  unfold byte_of_Z. pose proof (Z_of_byte_range b) as Hr.
  rewrite Z.mod_small by lia. unfold Z_of_byte.
  rewrite N2Z.id, Byte.of_to_N. reflexivity.
Qed.

Lemma len_app {A} (l k : list A) : len (l ++ k) = len l + len k.
Proof. unfold len. rewrite length_app. lia. Qed.

Lemma len_nonneg {A} (l : list A) : 0 <= len l.
Proof. unfold len. lia. Qed.

(** ** Reading from a stream *)

(** A read that the stream can serve in full. *)
Lemma Read_full (s : list byte) (pos : Z) (e : bool) (p : list byte) :
  0 <= pos -> (0 < length p)%nat -> pos + len p <= len s ->
  Read (mkRS s pos e) p =
    (len p,
     if e && (len s <=? pos + len p) then Some EOF else None,
     take (length p) (drop (Z.to_nat pos) s),
     mkRS s (pos + len p) e).
Proof.
  intros Hpos Hp Hfit. unfold Read, len in *. simpl.
  destruct (Z.leb_spec (Z.of_nat (length s)) pos) as [Hle|Hlt]; [lia|].
  rewrite length_drop.
  replace (Nat.min (length p) (length s - Z.to_nat pos)) with (length p) by lia.
  rewrite drop_all, app_nil_r. reflexivity.
Qed.

(** A read at or past the end of the stream. *)
Lemma Read_at_end (s : list byte) (pos : Z) (e : bool) (p : list byte) :
  len s <= pos -> Read (mkRS s pos e) p = (0, Some EOF, p, mkRS s pos e).
Proof.
  intros H. unfold Read; simpl.
  destruct (Z.leb_spec (len s) pos); [reflexivity|lia].
Qed.

(** A read that the stream can only serve in part. *)
Lemma Read_short (s : list byte) (pos : Z) (p : list byte) :
  0 <= pos -> pos < len s -> len s < pos + len p ->
  exists q, Read (mkRS s pos false) p = (len s - pos, None, q, mkRS s (len s) false).
Proof.
  intros Hpos Hlt Hshort. unfold Read, len in *. simpl.
  destruct (Z.leb_spec (Z.of_nat (length s)) pos) as [Hle|_]; [lia|].
  rewrite length_drop.
  replace (Nat.min (length p) (length s - Z.to_nat pos))
    with (length s - Z.to_nat pos)%nat by lia.
  rewrite Nat2Z.inj_sub, Z2Nat.id by lia.
  replace (pos + (Z.of_nat (length s) - pos)) with (Z.of_nat (length s)) by lia.
  eexists. reflexivity.
Qed.

(** ** Assert *)

(** The two markers Assert looks at. *)
Definition starts_with_soi (s : list byte) : Prop := take 2 s = soi.
Definition ends_with_eoi (s : list byte) : Prop := drop (length s - 2) s = eoi.

Lemma Assert_eq (s : list byte) (pos : Z) (e : bool) :
  (2 <= length s)%nat -> e = false \/ (3 <= length s)%nat ->
  Assert (mkRS s pos e) =
    if bool_decide (take 2 s = soi) then
      if bool_decide (drop (length s - 2) s = eoi)
      then Ok (mkRS s (len s) e) else Err ErrMissingEOI
    else Err ErrMissingSOI.
Proof.
  intros Hlen He. unfold Assert, Seek. simpl.
  rewrite Read_full by (unfold len; simpl; lia). simpl.
  change (0 + len [x00; x00]) with 2. change (Z.to_nat 0) with 0%nat.
  rewrite drop_0.
  replace (e && (len s <=? 2)) with false; cycle 1.
  { destruct He as [->|He]; [reflexivity|].
    destruct (Z.leb_spec (len s) 2); [unfold len in *; lia|].
    destruct e; reflexivity. }
  unfold bytes_Equal at 1.
  destruct (bool_decide (take 2 s = soi)); simpl; [|reflexivity].
  destruct (Z.ltb_spec (len s + -2) 0) as [Hneg|_]; [unfold len in *; lia|].
  simpl.
  assert (Hread : Read (mkRS s (len s + -2) e) (take 2 s) =
            (2, (if e then Some EOF else None), drop (length s - 2) s,
             mkRS s (len s) e)).
  { rewrite Read_full; unfold len; rewrite ?length_take; try lia.
    replace (Nat.min 2 (length s)) with 2%nat by lia.
    replace (Z.to_nat (Z.of_nat (length s) + -2)) with (length s - 2)%nat by lia.
    rewrite take_ge by (rewrite length_drop; lia).
    replace (Z.of_nat (length s) + -2 + Z.of_nat 2) with (Z.of_nat (length s)) by lia.
    rewrite Z.leb_refl, andb_true_r. reflexivity. }
  rewrite Hread. unfold bytes_Equal.
  destruct e; simpl; destruct (bool_decide (drop (length s - 2) s = eoi));
    reflexivity.
Qed.

(** A call returns normally, with a nil error. *)
Definition succeeds {A} (o : outcome A) : Prop := exists a, o = Ok a.

Lemma soi_not_eoi (s : list byte) :
  length s = 2%nat -> take 2 s = soi -> drop (length s - 2) s = eoi -> False.
Proof.
  intros Hl H1 H2. rewrite Hl in H2. simpl in H2.
  rewrite take_ge in H1 by lia. rewrite H1 in H2. discriminate.
Qed.

Lemma Assert_eof_first_read (s : list byte) (pos : Z) :
  length s = 2%nat -> Assert (mkRS s pos true) = Err EOF.
Proof.
  intros Hl. destruct s as [|a [|b [|c s]]]; try discriminate. reflexivity.
Qed.

(** C5. On a stream of at least two bytes Assert returns no error exactly
    when the stream starts with SOI and ends with EOI.  Unless the very
    first read already reports the end of the stream, a missing SOI is
    reported as such, and a missing EOI (SOI being there) as such.  A
    stream that reports io.EOF together with its last bytes does so on
    the trailing read, which leaves the verdict unchanged; the same
    condition on the first read (a two-byte stream) is returned as the
    error. *)
Theorem Assert_checks_markers (s : list byte) (pos : Z) (e : bool) :
  (2 <= length s)%nat ->
  (succeeds (Assert (mkRS s pos e)) <-> starts_with_soi s /\ ends_with_eoi s) /\
  (e = false \/ (3 <= length s)%nat ->
     (~ starts_with_soi s -> Assert (mkRS s pos e) = Err ErrMissingSOI) /\
     (starts_with_soi s -> ~ ends_with_eoi s ->
        Assert (mkRS s pos e) = Err ErrMissingEOI)) /\
  (e = true ->
     (forall p : list byte, length p = 2%nat ->
        (Read (mkRS s (len s + -2) e) p).1.1.2 = Some EOF) /\
     ((3 <= length s)%nat -> starts_with_soi s -> ends_with_eoi s ->
        Assert (mkRS s pos e) = Ok (mkRS s (len s) e)) /\
     (length s = 2%nat -> Assert (mkRS s pos e) = Err EOF)).
Proof.
  intros Hlen. unfold starts_with_soi, ends_with_eoi, succeeds.
  assert (Hcase : e = false \/ (3 <= length s)%nat \/
                  (e = true /\ length s = 2%nat)).
  { destruct e; [|auto]. destruct (decide (length s = 2%nat)); [auto|].
    right; left; lia. }
  split; [|split].
  - destruct Hcase as [He|[He|[-> Hl]]].
    1,2: rewrite Assert_eq by auto; repeat case_bool_decide;
         (split; [intros [a Ha]|intros [H1 H2]]); try discriminate;
         try tauto; eauto.
    rewrite Assert_eof_first_read by assumption.
    split; [intros [a Ha]; discriminate|].
    intros [H1 H2]. destruct (soi_not_eoi s Hl H1 H2).
  - intros He. rewrite Assert_eq by auto.
    split; [intros Hs|intros Hs He'];
      repeat case_bool_decide; try reflexivity; tauto.
  - intros ->. split; [|split].
    + intros p Hp. rewrite Read_full by (unfold len in *; lia). simpl.
      replace (len s + -2 + len p) with (len s) by (unfold len; lia).
      rewrite Z.leb_refl. reflexivity.
    + intros H3 H1 H2. rewrite Assert_eq by auto.
      rewrite !bool_decide_eq_true_2 by assumption. reflexivity.
    + apply Assert_eof_first_read.
Qed.

Lemma Assert_checks_markers_witness :
  (succeeds (Assert (mkRS [xff; xd8; x00; xff; xd9] 3 true)) <->
     starts_with_soi [xff; xd8; x00; xff; xd9] /\
     ends_with_eoi [xff; xd8; x00; xff; xd9]) /\
  Assert (mkRS [xff; xd8; x00; xff; xd9] 3 true) =
    Ok (mkRS [xff; xd8; x00; xff; xd9] 5 true).
Proof.
  pose proof (Assert_checks_markers [xff; xd8; x00; xff; xd9] 3 true
                ltac:(simpl; lia)) as (Hiff & _ & Heof).
  split; [exact Hiff|].
  apply (Heof eq_refl); [simpl; lia|reflexivity|reflexivity].
Defined.

(** ** The scratch buffer *)

(** The length a segment header declares, as plain arithmetic. *)
Definition declared_length (hi lo : byte) : Z := 256 * Z_of_byte hi + Z_of_byte lo.

Lemma lor_shiftl_8 (a b : Z) :
  0 <= a < 256 -> Z.lor a (Z.shiftl b 8) = a + 256 * b.
Proof.
  intros Ha.
  assert (Hland : Z.land a (Z.shiftl b 8) = 0).
  { apply Z.bits_inj'. intros n Hn. rewrite Z.land_spec, Z.bits_0.
    destruct (Z.lt_ge_cases n 8) as [Hlt|Hge].
    - rewrite Z.shiftl_spec_low by assumption. apply andb_false_r.
    - rewrite <- (Z.mod_small a (2 ^ 8)) by (change (2 ^ 8) with 256; lia).
      rewrite Z.mod_pow2_bits_high by lia. reflexivity. }
  pose proof (Z.add_lor_land a (Z.shiftl b 8)) as H.
  rewrite Hland, Z.shiftl_mul_pow2 in H by lia.
  rewrite Z.shiftl_mul_pow2 by lia. change (2 ^ 8) with 256 in *. lia.
Qed.

Lemma Uint16_declared (hi lo : byte) (l : list byte) :
  Uint16 (hi :: lo :: l) = Ok (declared_length hi lo).
Proof.
  unfold Uint16, declared_length.
  rewrite lor_shiftl_8 by apply Z_of_byte_range. f_equal. lia.
Qed.

Lemma declared_length_range (hi lo : byte) : 0 <= declared_length hi lo < 65536.
Proof.
  unfold declared_length.
  pose proof (Z_of_byte_range hi). pose proof (Z_of_byte_range lo). lia.
Qed.

(** Big-endian encodings, as [p.bytes] returns them. *)
Definition be16 (v : Z) : list byte :=
  [byte_of_Z (Z.shiftr v 8); byte_of_Z v].
Definition be32 (v : Z) : list byte :=
  [byte_of_Z (Z.shiftr v 24); byte_of_Z (Z.shiftr v 16);
   byte_of_Z (Z.shiftr v 8); byte_of_Z v].

Lemma scratch_bytes_2 (p : scratch) (n : Z) :
  length p = 4%nat ->
  exists p', length p' = 4%nat /\
    scratch_bytes p n 2 = Ok (be16 (uint16 n), p').
Proof.
  intros Hp. destruct p as [|a [|b [|c [|d [|x p]]]]]; try discriminate.
  eexists. split; [|reflexivity]. reflexivity.
Qed.

Lemma scratch_bytes_4 (p : scratch) (n : Z) :
  length p = 4%nat ->
  exists p', length p' = 4%nat /\
    scratch_bytes p n 4 = Ok (be32 (uint32 n), p').
Proof.
  intros Hp. destruct p as [|a [|b [|c [|d [|x p]]]]]; try discriminate.
  eexists. split; [|reflexivity]. reflexivity.
Qed.

(** ** The segment scan *)

Section ScannerFacts.

Variable minSegLen : Z.

(** One turn of the loop on a stream that can serve four bytes. *)
Lemma seekLoop_header (fuel : nat) (p : scratch) (s : list byte) (pos : nat)
    (b0 b1 b2 b3 : byte) :
  length p = 4%nat ->
  take 4 (drop pos s) = [b0; b1; b2; b3] ->
  seekLoop minSegLen (S fuel) p (mkRS s (Z.of_nat pos) false) =
    if bytes_Equal [b0; b1] dqt then Ok (mkRS s (Z.of_nat pos + 4) false)
    else if declared_length b2 b3 - 2 <? minSegLen then Err ErrSegmentTooSmall
    else
      rs ← Seek (mkRS s (Z.of_nat pos + 4) false)
                (declared_length b2 b3 - 2) SeekCurrent;
      seekLoop minSegLen fuel [b0; b1; b2; b3] rs.
Proof.
  intros Hp Hhdr.
  assert (Hfit : (pos + 4 <= length s)%nat).
  { apply (f_equal length) in Hhdr.
    rewrite length_take, length_drop in Hhdr. cbn [length] in Hhdr. lia. }
  cbn [seekLoop].
  rewrite Read_full by (unfold len; lia).
  rewrite Hp, Nat2Z.id, Hhdr. cbn [andb].
  replace (len p) with 4 by (unfold len; lia).
  cbn [Z.eqb Pos.eqb negb slice length Nat.ltb Nat.leb take drop Nat.sub
       mbind outcome_bind].
  destruct (bytes_Equal [b0; b1] dqt); [reflexivity|].
  rewrite Uint16_declared. reflexivity.
Qed.

(** The scratch is overwritten before it is looked at: its contents on
    entry do not matter. *)
Lemma seekLoop_scratch (fuel : nat) (p p' : scratch) (rs : ReadSeeker) :
  length p = 4%nat -> length p' = 4%nat ->
  seekLoop minSegLen fuel p rs = seekLoop minSegLen fuel p' rs.
Proof.
  intros Hp Hp'. destruct fuel as [|fuel]; [reflexivity|].
  cbn [seekLoop]. unfold Read. rewrite Hp, Hp'.
  destruct (len (rs_data rs) <=? rs_pos rs); [reflexivity|].
  set (src := drop (Z.to_nat (rs_pos rs)) (rs_data rs)).
  destruct (rs_eofWithData rs && _); [reflexivity|].
  destruct (decide (Nat.min 4 (length src) = 4%nat)) as [Hn|Hn].
  - rewrite Hn. rewrite !drop_ge by lia. reflexivity.
  - replace (Z.of_nat (Nat.min 4 (length src)) =? 4) with false
      by (symmetry; apply Z.eqb_neq; lia).
    reflexivity.
Qed.

Lemma seekToDQT_scratch (p p' : scratch) (rs : ReadSeeker) :
  length p = 4%nat -> length p' = 4%nat ->
  seekToDQT minSegLen p rs = seekToDQT minSegLen p' rs.
Proof.
  intros Hp Hp'. unfold seekToDQT.
  destruct (Seek rs 2 SeekStart) as [rs1| | |]; try reflexivity.
  cbn [mbind outcome_bind].
  rewrite (seekLoop_scratch _ p p') by assumption. reflexivity.
Qed.

(** The loop budget is never used up: a turn that goes on has read
    four bytes and skipped at least [minSegLen] more. *)
Lemma seekLoop_fuel (fuel : nat) :
  -4 < minSegLen ->
  forall (p : scratch) (rs : ReadSeeker),
    (0 < fuel)%nat -> len (rs_data rs) - rs_pos rs < Z.of_nat fuel ->
    seekLoop minSegLen fuel p rs <> OutOfFuel.
Proof.
  intros Hfloor. induction fuel as [|fuel IH]; intros p rs Hpos Hfuel; [lia|].
  cbn [seekLoop]. unfold Read.
  destruct (Z.leb_spec (len (rs_data rs)) (rs_pos rs)) as [Hend|Hin];
    [discriminate|].
  set (src := drop (Z.to_nat (rs_pos rs)) (rs_data rs)).
  destruct (rs_eofWithData rs && _); [discriminate|].
  destruct (Z.eqb_spec (Z.of_nat (Nat.min (length p) (length src))) 4)
    as [Hn|Hn]; [|discriminate].
  cbn [negb].
  destruct (slice _ 0 2) as [m| | |] eqn:Hm; try discriminate;
    [|unfold slice in Hm; destruct (_ <? _)%nat; discriminate].
  cbn [mbind outcome_bind].
  destruct (bytes_Equal m dqt); [discriminate|].
  destruct (slice _ 2 4) as [l| | |] eqn:Hl; try discriminate;
    [|unfold slice in Hl; destruct (_ <? _)%nat; discriminate].
  cbn [mbind outcome_bind].
  destruct (Uint16 l) as [u| | |] eqn:Hu; try discriminate;
    [|unfold Uint16 in Hu; destruct l as [|? [|? ?]]; discriminate].
  cbn [mbind outcome_bind].
  destruct (Z.ltb_spec (u - 2) minSegLen) as [Hsmall|Hbig]; [discriminate|].
  unfold Seek. cbn [rs_pos rs_data rs_eofWithData].
  destruct (_ <? 0); [discriminate|]. cbn [mbind outcome_bind].
  apply IH; cbn [rs_pos rs_data]; lia.
Qed.

Lemma seekToDQT_fuel (p : scratch) (rs : ReadSeeker) :
  -4 < minSegLen -> seekToDQT minSegLen p rs <> OutOfFuel.
Proof.
  intros Hfloor. unfold seekToDQT.
  change (Seek rs 2 SeekStart)
    with (Ok (mkRS (rs_data rs) 2 (rs_eofWithData rs))).
  cbn [mbind outcome_bind rs_data].
  destruct (seekLoop minSegLen _ p _) as [rs1| | |] eqn:Hloop;
    try discriminate.
  - cbn [mbind outcome_bind]. unfold Seek. destruct (_ <? 0); discriminate.
  - exfalso. revert Hloop. apply seekLoop_fuel; cbn [rs_pos rs_data];
      unfold len; lia.
Qed.

End ScannerFacts.

(** ** The walk of the scan

    The contract of the scan in terms of positions in the byte sequence:
    from [pos], a segment whose marker is not DQT and whose declared
    length, less the two bytes of the length field, reaches the floor is
    skipped; [scan_steps floor s pos q] says that the scan started at
    [pos] comes to read a header at [q]. *)
Inductive scan_steps (floor : Z) (s : list byte) : nat -> nat -> Prop :=
  | scan_stay (pos : nat) : scan_steps floor s pos pos
  | scan_skip (pos q : nat) (b0 b1 b2 b3 : byte) :
      take 4 (drop pos s) = [b0; b1; b2; b3] ->
      [b0; b1] <> dqt ->
      floor <= declared_length b2 b3 - 2 ->
      scan_steps floor s (pos + 4 + Z.to_nat (declared_length b2 b3 - 2)) q ->
      scan_steps floor s pos q.

(** A DQT marker followed by two more bytes stands at [q]. *)
Definition dqt_at (s : list byte) (q : nat) : Prop :=
  exists b2 b3, take 4 (drop q s) = [xff; xdb; b2; b3].

(** The scan that starts after SOI reaches a DQT marker at [q]. *)
Definition dqt_reachable (floor : Z) (s : list byte) (q : nat) : Prop :=
  scan_steps floor s 2 q /\ dqt_at s q.

Section ScanWalk.

Variable minSegLen : Z.
Hypothesis minSegLen_nonneg : 0 <= minSegLen.

Lemma seekLoop_steps (s : list byte) (pos q : nat) :
  scan_steps minSegLen s pos q ->
  forall (fuel : nat) (p : scratch),
    length p = 4%nat -> (length s - pos < fuel)%nat ->
    exists (fuel' : nat) (p' : scratch),
      length p' = 4%nat /\ (length s - q < fuel')%nat /\
      seekLoop minSegLen fuel p (mkRS s (Z.of_nat pos) false) =
      seekLoop minSegLen fuel' p' (mkRS s (Z.of_nat q) false).
Proof.
  induction 1 as [pos|pos q b0 b1 b2 b3 Hhdr Hm Hlen Hsteps IH];
    intros fuel p Hp Hfuel.
  - exists fuel, p. auto.
  - destruct fuel as [|fuel]; [lia|].
    assert (Hfit : (pos + 4 <= length s)%nat).
    { apply (f_equal length) in Hhdr.
      rewrite length_take, length_drop in Hhdr. cbn [length] in Hhdr. lia. }
    rewrite (seekLoop_header _ _ _ _ _ _ _ _ _ Hp Hhdr).
    unfold bytes_Equal. rewrite bool_decide_eq_false_2 by assumption.
    destruct (Z.ltb_spec (declared_length b2 b3 - 2) minSegLen); [lia|].
    unfold Seek. cbn [rs_pos rs_data rs_eofWithData].
    destruct (Z.ltb_spec (Z.of_nat pos + 4 + (declared_length b2 b3 - 2)) 0);
      [lia|].
    cbn [mbind outcome_bind].
    replace (Z.of_nat pos + 4 + (declared_length b2 b3 - 2))
      with (Z.of_nat (pos + 4 + Z.to_nat (declared_length b2 b3 - 2))) by lia.
    apply IH; [reflexivity|lia].
Qed.

(** What the loop does with the header it finds at [q]. *)
Lemma seekLoop_at_dqt (fuel : nat) (p : scratch) (s : list byte) (q : nat) :
  length p = 4%nat -> dqt_at s q ->
  seekLoop minSegLen (S fuel) p (mkRS s (Z.of_nat q) false) =
    Ok (mkRS s (Z.of_nat q + 4) false).
Proof.
  intros Hp (b2 & b3 & Hhdr).
  rewrite (seekLoop_header _ _ _ _ _ _ _ _ _ Hp Hhdr). reflexivity.
Qed.

Lemma seekLoop_at_small (fuel : nat) (p : scratch) (s : list byte) (q : nat)
    (b0 b1 b2 b3 : byte) :
  length p = 4%nat ->
  take 4 (drop q s) = [b0; b1; b2; b3] -> [b0; b1] <> dqt ->
  declared_length b2 b3 - 2 < minSegLen ->
  seekLoop minSegLen (S fuel) p (mkRS s (Z.of_nat q) false) =
    Err ErrSegmentTooSmall.
Proof.
  intros Hp Hhdr Hm Hsmall.
  rewrite (seekLoop_header _ _ _ _ _ _ _ _ _ Hp Hhdr).
  unfold bytes_Equal. rewrite bool_decide_eq_false_2 by assumption.
  destruct (Z.ltb_spec (declared_length b2 b3 - 2) minSegLen); [reflexivity|lia].
Qed.

Lemma seekLoop_at_short (fuel : nat) (p : scratch) (s : list byte) (q : nat) :
  length p = 4%nat -> (q < length s < q + 4)%nat ->
  seekLoop minSegLen (S fuel) p (mkRS s (Z.of_nat q) false) =
    Err ErrNoSegmentHeader.
Proof.
  intros Hp Hq. cbn [seekLoop].
  destruct (Read_short s (Z.of_nat q) p) as [p' ->]; unfold len; try lia.
  destruct (Z.eqb_spec (Z.of_nat (length s) - Z.of_nat q) 4); [lia|].
  reflexivity.
Qed.

Lemma seekLoop_at_end (fuel : nat) (p : scratch) (s : list byte) (q : nat) :
  (length s <= q)%nat ->
  seekLoop minSegLen (S fuel) p (mkRS s (Z.of_nat q) false) = Err EOF.
Proof.
  intros Hq. cbn [seekLoop].
  rewrite Read_at_end by (unfold len; lia). reflexivity.
Qed.

(** The scan as a whole, up to the header at which the walk ends. *)
Lemma seekToDQT_steps (p : scratch) (s : list byte) (pos : Z) (q : nat) :
  length p = 4%nat -> scan_steps minSegLen s 2 q ->
  exists (fuel : nat) (p' : scratch),
    length p' = 4%nat /\
    seekToDQT minSegLen p (mkRS s pos false) =
      (rs ← seekLoop minSegLen (S fuel) p' (mkRS s (Z.of_nat q) false);
       Seek rs (-4) SeekCurrent).
Proof.
  intros Hp Hsteps. unfold seekToDQT.
  change (Seek (mkRS s pos false) 2 SeekStart) with (Ok (mkRS s 2 false)).
  cbn [mbind outcome_bind rs_data].
  destruct (seekLoop_steps s 2 q Hsteps (S (length s)) p Hp ltac:(lia))
    as (fuel' & p' & Hp' & Hfuel' & Heq).
  destruct fuel' as [|fuel']; [lia|].
  exists fuel', p'. split; [assumption|].
  change 2 with (Z.of_nat 2) at 1. rewrite Heq. reflexivity.
Qed.

Lemma seekToDQT_found (p : scratch) (s : list byte) (pos : Z) (q : nat) :
  length p = 4%nat -> dqt_reachable minSegLen s q ->
  seekToDQT minSegLen p (mkRS s pos false) = Ok (mkRS s (Z.of_nat q) false).
Proof.
  intros Hp [Hsteps Hdqt].
  destruct (seekToDQT_steps p s pos q Hp Hsteps) as (fuel & p' & Hp' & ->).
  rewrite seekLoop_at_dqt by assumption.
  cbn [mbind outcome_bind]. unfold Seek. cbn [rs_pos rs_data rs_eofWithData].
  destruct (Z.ltb_spec (Z.of_nat q + 4 + -4) 0); [lia|].
  do 2 f_equal. lia.
Qed.

End ScanWalk.

(** ** The layout of the APP1 segment *)

(** The sum over the visited values of string length plus one. *)
Definition values_size (range : list (Z * list byte)) : Z :=
  foldr (fun tv a => len tv.2 + 1 + a) 0 range.

(** Where the value blob starts, counted from the TIFF header, for [n]
    entries. *)
Definition ifd0_offset (n : Z) : Z := len tiff + 2 + n * 12 + len ifd0Next.

(** The total APP1 length SetMeta computes. *)
Definition app1_total (range : list (Z * list byte)) (n : Z) : Z :=
  4 + len exif + ifd0_offset n + values_size range.

(** The directory entries for the tags [ks], values starting at [off]. *)
Fixpoint entries (md : MetaData) (ks : list Z) (off : Z) : list byte :=
  match ks with
  | [] => []
  | t :: ks =>
    tagMarker !!! t ++ be32 (uint32 (len (md !!! t) + 1)) ++ be32 (uint32 off)
      ++ entries md ks (off + (len (md !!! t) + 1))
  end.

(** The value blob for the tags [ks]. *)
Definition blob (md : MetaData) (ks : list Z) : list byte :=
  flat_map (fun t => md !!! t ++ [x00]) ks.

(** Everything SetMeta puts in front of the rest of the stream. *)
Definition segment (range : list (Z * list byte)) (md : MetaData) : list byte :=
  let n := Z.of_nat (size md) in
  let ks := sort_Ints range.*1 in
  soi ++ app1 ++ be16 (uint16 (app1_total range n)) ++ exif ++ tiff ++
  be16 (uint16 n) ++ entries md ks (ifd0_offset n) ++ ifd0Next ++
  blob md ks ++ segPad.

Lemma range_fold (range : list (Z * list byte)) (a : Z) (s : list Z) :
  fold_left (fun '(a, s) '(t, v) => (a + (len v + 1), s ++ [t])) range (a, s)
  = (a + values_size range, s ++ range.*1).
Proof.
  revert a s. induction range as [|[t v] range IH]; intros a s; simpl.
  - rewrite Z.add_0_r, app_nil_r. reflexivity.
  - rewrite IH, <- app_assoc. f_equal. lia.
Qed.

Lemma blob_len_cons (md : MetaData) (t : Z) (ks : list Z) :
  len (blob md (t :: ks)) = len (md !!! t) + 1 + len (blob md ks).
Proof.
  unfold blob. simpl. rewrite !len_app. unfold len. simpl. lia.
Qed.

Lemma writeEntries_eq (md : MetaData) (ks : list Z) :
  forall st : encoder,
    length (enc_p st) = 4%nat ->
    exists p', length p' = 4%nat /\
      writeEntries md ks st =
        Ok (mkEnc (enc_buf st ++ entries md ks (enc_ifdOffset st))
                  (enc_data st ++ blob md ks)
                  (enc_ifdOffset st + len (blob md ks)) p').
Proof.
  induction ks as [|t ks IH]; intros [buf data off p] Hp; cbn [enc_p] in Hp.
  - exists p. split; [assumption|]. cbn. rewrite !app_nil_r, Z.add_0_r.
    reflexivity.
  - cbn [writeEntries enc_buf enc_data enc_ifdOffset enc_p].
    destruct (scratch_bytes_4 p (len (md !!! t ++ [x00])) Hp) as (p1 & Hp1 & ->).
    cbn [mbind outcome_bind].
    destruct (scratch_bytes_4 p1 off Hp1) as (p2 & Hp2 & ->).
    cbn [mbind outcome_bind].
    destruct (IH (mkEnc (((buf ++ tagMarker !!! t) ++
                           be32 (uint32 (len (md !!! t ++ [x00])))) ++
                           be32 (uint32 off))
                        (data ++ md !!! t ++ [x00])
                        (off + len (md !!! t ++ [x00])) p2) Hp2)
      as (p' & Hp' & ->).
    exists p'. split; [assumption|].
    cbn [enc_buf enc_data enc_ifdOffset entries].
    rewrite blob_len_cons.
    replace (len (md !!! t ++ [x00])) with (len (md !!! t) + 1)
      by (rewrite len_app; reflexivity).
    f_equal. f_equal.
    + rewrite <- !app_assoc. reflexivity.
    + unfold blob. cbn [flat_map]. rewrite <- !app_assoc. reflexivity.
    + lia.
Qed.

Section EncoderFacts.

Variable minSegLen : Z.

(** SetMeta, with the entry loop and the scratch calls carried out. *)
Lemma SetMetaRange_eq (range : list (Z * list byte)) (rs : ReadSeeker)
    (md : MetaData) :
  SetMetaRange minSegLen range rs md =
    (rs ← Assert rs;
     if Z.of_nat (size md) =? 0 then
       rs ← seekToDQT minSegLen [x00; x00; x00; x00] rs;
       Ok (MultiReader soi rs)
     else if 1024 * 64 <? app1_total range (Z.of_nat (size md)) then
       Err ErrApp1TooLong
     else
       rs ← seekToDQT minSegLen [x00; x00; x00; x00] rs;
       Ok (MultiReader (segment range md) rs)).
Proof.
  unfold SetMetaRange.
  destruct (Assert rs) as [rs1| | |]; try reflexivity.
  cbn [mbind outcome_bind].
  destruct (Z.of_nat (size md) =? 0); [reflexivity|].
  rewrite range_fold. cbn [app].
  change (0 + 4 + len exif + (0 + len tiff + 2 + Z.of_nat (size md) * 12
            + len ifd0Next) + values_size range)
    with (app1_total range (Z.of_nat (size md))).
  destruct (1024 * 64 <? app1_total range (Z.of_nat (size md)));
    [reflexivity|].
  destruct (scratch_bytes_2 [x00; x00; x00; x00]
              (app1_total range (Z.of_nat (size md))) eq_refl)
    as (p1 & Hp1 & ->).
  cbn [mbind outcome_bind].
  destruct (scratch_bytes_2 p1 (Z.of_nat (size md)) Hp1) as (p2 & Hp2 & ->).
  cbn [mbind outcome_bind].
  match goal with
  | |- context [writeEntries md ?ks ?st] =>
      destruct (writeEntries_eq md ks st Hp2) as (p3 & Hp3 & ->)
  end.
  cbn [mbind outcome_bind enc_buf enc_data enc_ifdOffset enc_p].
  rewrite (seekToDQT_scratch minSegLen p3 [x00; x00; x00; x00])
    by (assumption || reflexivity).
  destruct (seekToDQT _ _ rs1) as [rs2| | |]; try reflexivity.
  cbn [mbind outcome_bind]. unfold segment.
  change (0 + len tiff + 2 + Z.of_nat (size md) * 12 + len ifd0Next)
    with (ifd0_offset (Z.of_nat (size md))).
  rewrite <- !app_assoc. reflexivity.
Qed.

End EncoderFacts.

(** ** Independence of the iteration order *)

Lemma values_size_perm (r1 r2 : list (Z * list byte)) :
  r1 ≡ₚ r2 -> values_size r1 = values_size r2.
Proof.
  induction 1 as [|x l l' _ IH|x y l|l l' l'' _ IH1 _ IH2]; simpl.
  - reflexivity.
  - unfold values_size in *. simpl. rewrite IH. reflexivity.
  - unfold values_size. simpl. lia.
  - congruence.
Qed.

Lemma sort_Ints_sorted (l : list Z) : Sorted Z.le (sort_Ints l).
Proof. apply (Sorted_merge_sort Z.le). Qed.

Lemma sort_Ints_perm (l : list Z) : sort_Ints l ≡ₚ l.
Proof. apply (merge_sort_Permutation Z.le). Qed.

Lemma sort_Ints_canonical (l1 l2 : list Z) :
  l1 ≡ₚ l2 -> sort_Ints l1 = sort_Ints l2.
Proof.
  intros Hperm. apply (Sorted_unique Z.le); try apply sort_Ints_sorted.
  rewrite !sort_Ints_perm. assumption.
Qed.

Lemma segment_perm (r1 r2 : list (Z * list byte)) (md : MetaData) :
  r1 ≡ₚ r2 -> segment r1 md = segment r2 md.
Proof.
  intros Hperm. unfold segment, app1_total.
  rewrite (values_size_perm r1 r2 Hperm).
  rewrite (sort_Ints_canonical r1.*1 r2.*1) by (rewrite Hperm; reflexivity).
  reflexivity.
Qed.

(** The computed total APP1 length of a metadata set: 4 bytes of marker
    and length, the EXIF header, the IFD0 offset, and for every value its
    length plus one. *)
Definition app1Len (md : MetaData) : Z :=
  app1_total (map_to_list md) (Z.of_nat (size md)).

(** The tags of a metadata set in the order SetMeta writes them. *)
Definition sortedKeys (md : MetaData) : list Z :=
  sort_Ints (map_to_list md).*1.

(** ** No panics *)

Lemma slice_ok (p : list byte) (lo hi : nat) :
  (hi <= length p)%nat -> slice p lo hi = Ok (take (hi - lo) (drop lo p)).
Proof.
  intros H. unfold slice.
  destruct (Nat.ltb_spec (length p) hi); [lia|reflexivity].
Qed.

Lemma Read_buffer_length (rs : ReadSeeker) (p : list byte) :
  (length (Read rs p).1.2 = length p)%nat.
Proof.
  unfold Read. destruct (_ <=? _); [reflexivity|]. cbn [fst snd].
  rewrite length_app, length_take, length_drop, length_drop. lia.
Qed.

Lemma Seek_no_panic (rs : ReadSeeker) (off : Z) (w : whence) :
  Seek rs off w <> Panic.
Proof. unfold Seek. destruct (_ <? 0); discriminate. Qed.

Lemma Assert_no_panic (rs : ReadSeeker) : Assert rs <> Panic.
Proof.
  unfold Assert, Seek. cbn [Z.ltb Z.compare mbind outcome_bind].
  destruct (Read _ _) as [[[n [e|]] p] rs1]; [discriminate|].
  destruct (negb _); [discriminate|].
  destruct (_ <? 0); [discriminate|]. cbn [mbind outcome_bind].
  destruct (Read _ _) as [[[n' [e|]] p'] rs2];
    repeat (destruct (negb _)); discriminate.
Qed.

Lemma seekLoop_no_panic (floor : Z) (fuel : nat) :
  forall (p : scratch) (rs : ReadSeeker),
    (4 <= length p)%nat -> seekLoop floor fuel p rs <> Panic.
Proof.
  induction fuel as [|fuel IH]; intros p rs Hp; [discriminate|].
  cbn [seekLoop].
  pose proof (Read_buffer_length rs p) as Hlen.
  destruct (Read rs p) as [[[n [e|]] p'] rs1]; [discriminate|].
  cbn [fst snd] in Hlen.
  destruct (negb _); [discriminate|].
  rewrite !slice_ok by lia. cbn [mbind outcome_bind].
  destruct (bytes_Equal _ dqt); [discriminate|].
  destruct p' as [|a [|b [|c [|d p']]]]; cbn [length] in Hlen; try lia.
  cbn [Nat.sub drop take Uint16 mbind outcome_bind].
  destruct (_ <? floor); [discriminate|].
  destruct (Seek rs1 _ SeekCurrent) as [rs2|e| |] eqn:Hseek;
    try discriminate; cbn [mbind outcome_bind].
  - apply IH. cbn [length]. lia.
  - destruct (Seek_no_panic _ _ _ Hseek).
Qed.

Lemma seekToDQT_no_panic (floor : Z) (p : scratch) (rs : ReadSeeker) :
  (4 <= length p)%nat -> seekToDQT floor p rs <> Panic.
Proof.
  intros Hp. unfold seekToDQT.
  change (Seek rs 2 SeekStart)
    with (Ok (mkRS (rs_data rs) 2 (rs_eofWithData rs))).
  cbn [mbind outcome_bind rs_data].
  destruct (seekLoop floor _ p _) as [rs1| | |] eqn:Hloop; try discriminate.
  - apply Seek_no_panic.
  - destruct (seekLoop_no_panic _ _ _ _ Hp Hloop).
Qed.

Lemma SetMetaRange_no_panic (floor : Z) (range : list (Z * list byte))
    (rs : ReadSeeker) (md : MetaData) :
  SetMetaRange floor range rs md <> Panic.
Proof.
  rewrite SetMetaRange_eq.
  destruct (Assert rs) as [rs1| | |] eqn:HA; try discriminate.
  - cbn [mbind outcome_bind].
    pose proof (seekToDQT_no_panic floor [x00; x00; x00; x00] rs1
                  ltac:(cbn [length]; lia)) as Hscan.
    destruct (_ =? 0); [|destruct (_ <? _); [discriminate|]];
      destruct (seekToDQT _ _ rs1); try discriminate; congruence.
  - destruct (Assert_no_panic _ HA).
Qed.

(** C10. [p.bytes] panics exactly when [byteCount] is neither 2 nor 4
    (on the four-byte scratch the package makes); the calls in SetMeta
    and ReplaceMeta pass 2 or 4, and neither they nor Assert panic, on
    any stream, metadata set and iteration order. *)
Theorem scratch_bytes_never_panics :
  (forall (a b c d : byte) (n byteCount : Z),
      scratch_bytes [a; b; c; d] n byteCount = Panic <->
      byteCount <> 2 /\ byteCount <> 4) /\
  (forall rs : ReadSeeker, Assert rs <> Panic) /\
  (forall (range : list (Z * list byte)) (rs : ReadSeeker) (md : MetaData),
      SetMeta range rs md <> Panic /\ ReplaceMeta range rs md <> Panic).
Proof.
  split; [|split].
  - intros a b c d n bc. unfold scratch_bytes.
    destruct (Z.eqb_spec bc 2) as [->|H2].
    { split; [discriminate|lia]. }
    destruct (Z.eqb_spec bc 4) as [->|H4].
    { split; [discriminate|lia]. }
    tauto.
  - apply Assert_no_panic.
  - intros range rs md. split; apply SetMetaRange_no_panic.
Qed.

(** ** Determinism *)

(** C8. SetMeta is a function of the source bytes and of the (tag, value)
    pairs of the metadata set: whatever order the runtime iterates the
    map in, and whichever of two maps holding the same pairs is passed,
    the result (the reader and so the bytes it yields, or the error) is
    the same. *)
Theorem SetMeta_deterministic (rs : ReadSeeker) (md1 md2 : MetaData)
    (range1 range2 : list (Z * list byte)) :
  (forall t : Z, md1 !! t = md2 !! t) ->
  range1 ≡ₚ map_to_list md1 -> range2 ≡ₚ map_to_list md2 ->
  SetMeta range1 rs md1 = SetMeta range2 rs md2 /\
  ReplaceMeta range1 rs md1 = ReplaceMeta range2 rs md2.
Proof.
  intros Hmd H1 H2. apply map_eq in Hmd. subst md2.
  assert (Hperm : range1 ≡ₚ range2) by (rewrite H1, H2; reflexivity).
  unfold SetMeta, ReplaceMeta. rewrite !SetMetaRange_eq.
  unfold app1_total.
  rewrite (values_size_perm _ _ Hperm), (segment_perm _ _ md1 Hperm).
  split; reflexivity.
Qed.

Lemma SetMeta_deterministic_witness :
  SetMeta [(MetaArtist, [x41]); (MetaTitle, [x54])]
          (NewReader [xff; xd8; xff; xdb; xff; xd9])
          (<[MetaTitle := [x54]]> {[MetaArtist := [x41]]}) =
  SetMeta [(MetaTitle, [x54]); (MetaArtist, [x41])]
          (NewReader [xff; xd8; xff; xdb; xff; xd9])
          (<[MetaArtist := [x41]]> {[MetaTitle := [x54]]}).
Proof.
  refine (proj1 (SetMeta_deterministic _ _ _ _ _ _ _ _)).
  - intros t. destruct (decide (t = MetaArtist)) as [->|Ha];
      [reflexivity|].
    destruct (decide (t = MetaTitle)) as [->|Ht]; [reflexivity|].
    rewrite !lookup_insert_ne, !lookup_singleton_ne by congruence.
    reflexivity.
  - vm_compute. first [reflexivity | apply perm_swap].
  - vm_compute. first [reflexivity | apply perm_swap].
Defined.

(** ** Termination of the model *)

Lemma Assert_fuel (rs : ReadSeeker) : Assert rs <> OutOfFuel.
Proof.
  unfold Assert, Seek. cbn [Z.ltb Z.compare mbind outcome_bind].
  destruct (Read _ _) as [[[n [e|]] p] rs1]; [discriminate|].
  destruct (negb _); [discriminate|].
  destruct (_ <? 0); [discriminate|]. cbn [mbind outcome_bind].
  destruct (Read _ _) as [[[n' [e|]] p'] rs2];
    repeat (destruct (negb _)); discriminate.
Qed.

(** SetMeta and ReplaceMeta always return: the loop budget is never the
    outcome. *)
Lemma SetMetaRange_fuel (floor : Z) (range : list (Z * list byte))
    (rs : ReadSeeker) (md : MetaData) :
  -4 < floor -> SetMetaRange floor range rs md <> OutOfFuel.
Proof.
  intros Hfloor. rewrite SetMetaRange_eq.
  destruct (Assert rs) as [rs1| | |] eqn:HA; try discriminate.
  - cbn [mbind outcome_bind].
    pose proof (seekToDQT_fuel floor [x00; x00; x00; x00] rs1 Hfloor) as Hscan.
    destruct (_ =? 0); [|destruct (_ <? _); [discriminate|]];
      destruct (seekToDQT _ _ rs1); try discriminate; congruence.
  - destruct (Assert_fuel _ HA).
Qed.

(** ** SetMeta on a well-formed stream *)

Lemma starts_with_soi_length (s : list byte) :
  starts_with_soi s -> (2 <= length s)%nat.
Proof.
  unfold starts_with_soi. intros H. apply (f_equal length) in H.
  rewrite length_take in H. cbn [length soi] in H. lia.
Qed.

Lemma Assert_valid (s : list byte) (pos : Z) :
  starts_with_soi s -> ends_with_eoi s ->
  Assert (mkRS s pos false) = Ok (mkRS s (len s) false).
Proof.
  intros Hs He. rewrite Assert_eq by (auto using starts_with_soi_length).
  rewrite !bool_decide_eq_true_2 by assumption. reflexivity.
Qed.

Lemma scan_steps_mono (f1 f2 : Z) (s : list byte) (pos q : nat) :
  f2 <= f1 -> scan_steps f1 s pos q -> scan_steps f2 s pos q.
Proof.
  intros Hle. induction 1 as [pos|pos q b0 b1 b2 b3 Hhdr Hm Hlen Hsteps IH].
  - constructor.
  - eapply scan_skip; eauto. lia.
Qed.

Lemma dqt_reachable_mono (f1 f2 : Z) (s : list byte) (q : nat) :
  f2 <= f1 -> dqt_reachable f1 s q -> dqt_reachable f2 s q.
Proof. intros Hle [H1 H2]. split; eauto using scan_steps_mono. Qed.

Lemma dqt_at_marker (s : list byte) (q : nat) :
  dqt_at s q -> take 2 (drop q s) = dqt.
Proof.
  intros (b2 & b3 & H). apply (f_equal (take 2)) in H.
  rewrite take_take in H. exact H.
Qed.

Lemma SetMetaRange_found (floor : Z) (range : list (Z * list byte))
    (s : list byte) (pos : Z) (md : MetaData) (q : nat) :
  0 <= floor -> starts_with_soi s -> ends_with_eoi s ->
  dqt_reachable floor s q ->
  SetMetaRange floor range (mkRS s pos false) md =
    if Z.of_nat (size md) =? 0 then
      Ok (MultiReader soi (mkRS s (Z.of_nat q) false))
    else if 1024 * 64 <? app1_total range (Z.of_nat (size md)) then
      Err ErrApp1TooLong
    else Ok (MultiReader (segment range md) (mkRS s (Z.of_nat q) false)).
Proof.
  intros Hfloor Hs He Hq. rewrite SetMetaRange_eq, Assert_valid by assumption.
  cbn [mbind outcome_bind].
  rewrite (seekToDQT_found floor Hfloor [x00; x00; x00; x00] s (len s) q
             eq_refl Hq).
  reflexivity.
Qed.

(** C6. On a stream that starts with SOI, ends with EOI and on which the
    scan reaches a DQT marker at [q], SetMeta (and ReplaceMeta) with the
    empty metadata set returns a reader that yields the two SOI bytes and
    then the source from the DQT marker on, and nothing in between. *)
Theorem SetMeta_empty_strips (s : list byte) (pos : Z) (q : nat)
    (range : list (Z * list byte)) :
  starts_with_soi s -> ends_with_eoi s -> dqt_reachable 8 s q ->
  (exists r, SetMeta range (mkRS s pos false) ∅ = Ok r /\
             ReadAll r = soi ++ drop q s) /\
  (exists r, ReplaceMeta range (mkRS s pos false) ∅ = Ok r /\
             ReadAll r = soi ++ drop q s) /\
  take 2 (drop q s) = dqt.
Proof.
  intros Hs He Hq.
  assert (Hq6 : dqt_reachable 6 s q) by (eapply dqt_reachable_mono; eauto; lia).
  unfold SetMeta, ReplaceMeta.
  rewrite (SetMetaRange_found 8 range s pos ∅ q) by (assumption || lia).
  rewrite (SetMetaRange_found 6 range s pos ∅ q) by (assumption || lia).
  rewrite map_size_empty. cbn [Z.of_nat Z.eqb].
  split; [|split].
  - eexists. split; [reflexivity|]. unfold ReadAll. cbn [rd_head rd_tail rs_pos rs_data].
    rewrite Nat2Z.id. reflexivity.
  - eexists. split; [reflexivity|]. unfold ReadAll. cbn [rd_head rd_tail rs_pos rs_data].
    rewrite Nat2Z.id. reflexivity.
  - apply dqt_at_marker, Hq.
Qed.

Lemma SetMeta_empty_strips_witness :
  exists r,
    SetMeta [] (NewReader [xff; xd8; xff; xe1; x00; x0d; x45; x78; x69; x66;
                           x00; x00; x00; x00; x00; x00; x00;
                           xff; xdb; x00; x04; x01; x02; xff; xd9]) ∅ = Ok r /\
    ReadAll r = [xff; xd8; xff; xdb; x00; x04; x01; x02; xff; xd9].
Proof.
  refine (proj1 (SetMeta_empty_strips _ 0 17 [] _ _ _)).
  - reflexivity.
  - reflexivity.
  - split.
    + eapply (scan_skip _ _ 2 17 xff xe1 x00 x0d);
        [reflexivity|discriminate|vm_compute; discriminate|apply scan_stay].
    + exists x00, x04. reflexivity.
Defined.

(** ** The capacity check *)

Lemma app1Len_singleton (t : Z) (v : list byte) :
  app1Len {[t := v]} = 37 + len v.
Proof.
  unfold app1Len, app1_total, ifd0_offset, values_size.
  rewrite map_to_list_singleton, map_size_singleton.
  cbn [foldr snd]. change (len exif) with 6. change (len tiff) with 8.
  change (len ifd0Next) with 4. lia.
Qed.

Lemma app1Len_lower (md : MetaData) :
  Z.of_nat (size md) = 0 -> app1Len md = 24.
Proof.
  intros H. assert (md = ∅) as -> by (apply map_size_empty_inv; lia).
  unfold app1Len. rewrite map_to_list_empty, map_size_empty. reflexivity.
Qed.

Lemma app1_total_range (range : list (Z * list byte)) (md : MetaData) :
  range ≡ₚ map_to_list md ->
  app1_total range (Z.of_nat (size md)) = app1Len md.
Proof.
  intros H. unfold app1Len, app1_total. rewrite (values_size_perm _ _ H).
  reflexivity.
Qed.

Lemma len_replicate (n : Z) (b : byte) :
  0 <= n -> len (replicate (Z.to_nat n) b) = n.
Proof. intros H. unfold len. rewrite length_replicate. lia. Qed.

(** The capacity violation comes from the capacity check alone. *)
Lemma Read_error (rs : ReadSeeker) (p : list byte) (e : error) :
  (Read rs p).1.1.2 = Some e -> e = EOF.
Proof.
  unfold Read. destruct (_ <=? _); cbn [fst snd].
  - congruence.
  - destruct (_ && _); congruence.
Qed.

Lemma Assert_not_capacity (rs : ReadSeeker) : Assert rs <> Err ErrApp1TooLong.
Proof.
  unfold Assert, Seek. cbn [Z.ltb Z.compare mbind outcome_bind].
  match goal with |- context [Read ?r ?p] =>
    pose proof (Read_error r p) as Hr1; destruct (Read r p) as [[[n [e|]] p1] rs1]
  end; cbn [fst snd] in Hr1.
  { rewrite (Hr1 e eq_refl). discriminate. }
  destruct (negb _); [discriminate|].
  destruct (_ <? 0); [discriminate|]. cbn [mbind outcome_bind].
  match goal with |- context [Read ?r ?p] =>
    pose proof (Read_error r p) as Hr2; destruct (Read r p) as [[[n' [e|]] p2] rs2]
  end; cbn [fst snd] in Hr2.
  - rewrite (Hr2 e eq_refl). repeat (destruct (negb _)); discriminate.
  - destruct (negb _); discriminate.
Qed.

Lemma seekLoop_not_capacity (floor : Z) (fuel : nat) :
  forall (p : scratch) (rs : ReadSeeker),
    seekLoop floor fuel p rs <> Err ErrApp1TooLong.
Proof.
  induction fuel as [|fuel IH]; intros p rs; [discriminate|].
  cbn [seekLoop].
  pose proof (Read_error rs p) as Hr.
  destruct (Read rs p) as [[[n [e|]] p'] rs1]; cbn [fst snd] in Hr.
  { rewrite (Hr e eq_refl). discriminate. }
  destruct (negb _); [discriminate|].
  destruct (slice p' 0 2) as [m| | |] eqn:Hm; try discriminate.
  { cbn [mbind outcome_bind]. destruct (bytes_Equal m dqt); [discriminate|].
    destruct (slice p' 2 4) as [l| | |] eqn:Hl; try discriminate.
    { cbn [mbind outcome_bind].
      destruct (Uint16 l) as [u| | |] eqn:Hu; try discriminate.
      { cbn [mbind outcome_bind]. destruct (_ <? floor); [discriminate|].
        unfold Seek. destruct (_ <? 0); [discriminate|].
        cbn [mbind outcome_bind]. apply IH. }
      unfold Uint16 in Hu. destruct l as [|? [|? ?]]; discriminate. }
    unfold slice in Hl. destruct (_ <? _)%nat; discriminate. }
  unfold slice in Hm. destruct (_ <? _)%nat; discriminate.
Qed.

Lemma seekToDQT_not_capacity (floor : Z) (p : scratch) (rs : ReadSeeker) :
  seekToDQT floor p rs <> Err ErrApp1TooLong.
Proof.
  unfold seekToDQT.
  change (Seek rs 2 SeekStart)
    with (Ok (mkRS (rs_data rs) 2 (rs_eofWithData rs))).
  cbn [mbind outcome_bind rs_data].
  destruct (seekLoop floor _ p _) as [rs1|e| |] eqn:Hloop; try discriminate.
  - cbn [mbind outcome_bind]. unfold Seek. destruct (_ <? 0); discriminate.
  - cbn [mbind outcome_bind]. intros [= ->].
    destruct (seekLoop_not_capacity _ _ _ _ Hloop).
Qed.

(** C9. When the computed total APP1 length is exactly 65536, the
    capacity check lets it pass (it rejects only totals above 65536): the
    error of SetMeta is never the capacity violation, on a well-formed
    stream SetMeta returns a reader, and the length field of the segment,
    the big-endian [uint16] of the total, is 00 00. *)
Theorem SetMeta_total_65536 (range : list (Z * list byte)) (rs : ReadSeeker)
    (md : MetaData) :
  range ≡ₚ map_to_list md -> app1Len md = 65536 ->
  SetMeta range rs md <> Err ErrApp1TooLong /\
  be16 (uint16 (app1Len md)) = [x00; x00] /\
  (forall r, SetMeta range rs md = Ok r ->
     take 2 (drop 4 (ReadAll r)) = [x00; x00]) /\
  (forall (s : list byte) (q : nat),
     rs_data rs = s -> rs_eofWithData rs = false ->
     starts_with_soi s -> ends_with_eoi s -> dqt_reachable 8 s q ->
     succeeds (SetMeta range rs md)).
Proof.
  intros Hperm Htotal.
  assert (Hsize : (Z.of_nat (size md) =? 0) = false).
  { apply Z.eqb_neq. intros H0. rewrite (app1Len_lower md H0) in Htotal.
    discriminate. }
  assert (Heq := SetMetaRange_eq 8 range rs md).
  rewrite Hsize, (app1_total_range range md Hperm), Htotal in Heq.
  change (1024 * 64 <? 65536) with false in Heq. cbn match in Heq.
  fold (SetMeta range rs md) in Heq.
  split; [|split; [|split]].
  - rewrite Heq.
    pose proof (Assert_not_capacity rs) as HA.
    destruct (Assert rs) as [rs1| | |]; try discriminate;
      cbn [mbind outcome_bind]; [|intros [= ->]; apply HA; reflexivity].
    pose proof (seekToDQT_not_capacity 8 [x00; x00; x00; x00] rs1) as HS.
    destruct (seekToDQT _ _ rs1); try discriminate.
    cbn [mbind outcome_bind]. intros [= ->]. apply HS; reflexivity.
  - rewrite Htotal. reflexivity.
  - intros r Hr. rewrite Heq in Hr.
    destruct (Assert rs) as [rs1| | |]; try discriminate.
    cbn [mbind outcome_bind] in Hr.
    destruct (seekToDQT _ _ rs1) as [rs2| | |]; try discriminate.
    cbn [mbind outcome_bind] in Hr. injection Hr as <-.
    unfold ReadAll, segment. cbn [rd_head].
    rewrite (app1_total_range range md Hperm), Htotal. reflexivity.
  - intros s q Hdata Hflag Hs He Hq. destruct rs as [s' pos e].
    cbn [rs_data rs_eofWithData] in Hdata, Hflag. subst s' e.
    unfold succeeds, SetMeta.
    rewrite (SetMetaRange_found 8 range s pos md q) by (assumption || lia).
    rewrite Hsize, (app1_total_range range md Hperm), Htotal.
    eexists. reflexivity.
Qed.

Lemma SetMeta_total_65536_witness :
  SetMeta (map_to_list {[MetaArtist := replicate (Z.to_nat 65499) x41]})
          (NewReader [xff; xd8; xff; xdb; xff; xd9])
          {[MetaArtist := replicate (Z.to_nat 65499) x41]}
    <> Err ErrApp1TooLong /\
  succeeds
    (SetMeta (map_to_list {[MetaArtist := replicate (Z.to_nat 65499) x41]})
             (NewReader [xff; xd8; xff; xdb; xff; xd9])
             {[MetaArtist := replicate (Z.to_nat 65499) x41]}).
Proof.
  pose proof (SetMeta_total_65536
                (map_to_list {[MetaArtist := replicate (Z.to_nat 65499) x41]})
                (NewReader [xff; xd8; xff; xdb; xff; xd9])
                {[MetaArtist := replicate (Z.to_nat 65499) x41]}
                (reflexivity _)) as H.
  destruct H as (H1 & _ & _ & H4).
  - rewrite app1Len_singleton, len_replicate by lia. reflexivity.
  - split; [exact H1|].
    apply (H4 _ 2%nat eq_refl eq_refl); [reflexivity|reflexivity|].
    split; [apply scan_stay|]. exists xff, xd9. reflexivity.
Defined.

Lemma ends_with_eoi_app (l k : list byte) :
  (2 <= length k)%nat -> ends_with_eoi k -> ends_with_eoi (l ++ k).
Proof.
  unfold ends_with_eoi. intros Hk H.
  rewrite drop_app, length_app.
  rewrite drop_ge by lia.
  replace (length l + length k - 2 - length l)%nat with (length k - 2)%nat
    by lia.
  exact H.
Qed.

(** A scan that stops with an error at the header it walks to. *)
Lemma seekToDQT_stops (floor : Z) (p : scratch) (s : list byte) (pos : Z)
    (q : nat) (e : error) :
  0 <= floor -> length p = 4%nat -> scan_steps floor s 2 q ->
  (forall (fuel : nat) (p' : scratch), length p' = 4%nat ->
     seekLoop floor (S fuel) p' (mkRS s (Z.of_nat q) false) = Err e) ->
  seekToDQT floor p (mkRS s pos false) = Err e.
Proof.
  intros Hfloor Hp Hsteps Hstop.
  destruct (seekToDQT_steps floor Hfloor p s pos q Hp Hsteps)
    as (fuel & p' & Hp' & ->).
  rewrite Hstop by assumption. reflexivity.
Qed.


(** On a well-formed stream the capacity check alone decides: totals up
    to 65536 are let through, totals above are rejected before anything
    is written. *)
Lemma SetMeta_capacity_check (range : list (Z * list byte)) (s : list byte)
    (pos : Z) (md : MetaData) (q : nat) :
  range ≡ₚ map_to_list md -> md <> ∅ ->
  starts_with_soi s -> ends_with_eoi s -> dqt_reachable 8 s q ->
  (app1Len md <= 65536 -> succeeds (SetMeta range (mkRS s pos false) md)) /\
  (65536 < app1Len md ->
     SetMeta range (mkRS s pos false) md = Err ErrApp1TooLong).
Proof.
  intros Hperm Hne Hs He Hq. unfold SetMeta, succeeds.
  rewrite (SetMetaRange_found 8 range s pos md q) by (assumption || lia).
  rewrite (app1_total_range range md Hperm).
  destruct (Z.eqb_spec (Z.of_nat (size md)) 0) as [H0|_].
  { destruct Hne. apply map_size_empty_inv. lia. }
  destruct (Z.ltb_spec (1024 * 64) (app1Len md)); split; intros; try lia;
    eauto.
Qed.

(** C3. One tag with a value of 65499 bytes makes a total of exactly
    65536.  SetMeta does not reject it: it returns a reader whose segment
    carries the length field 00 00, a segment that the scan of the
    package itself rejects as too small when the output is read back. *)
Theorem SetMeta_65536_not_rejected :
  let md : MetaData := {[MetaArtist := replicate (Z.to_nat 65499) x41]} in
  let src := [xff; xd8; xff; xdb; xff; xd9] in
  app1Len md = 65536 /\
  exists r,
    SetMeta (map_to_list md) (NewReader src) md = Ok r /\
    take 6 (ReadAll r) = [xff; xd8; xff; xe1; x00; x00] /\
    SetMeta [] (NewReader (ReadAll r)) ∅ = Err ErrSegmentTooSmall.
Proof.
  intros md src.
  assert (Htotal : app1Len md = 65536).
  { unfold md. rewrite app1Len_singleton, len_replicate by lia. reflexivity. }
  split; [exact Htotal|].
  assert (Hq : dqt_reachable 8 src 2).
  { split; [apply scan_stay|]. exists xff, xd9. reflexivity. }
  eexists. split; [|split].
  - unfold SetMeta, NewReader.
    rewrite (SetMetaRange_found 8 _ src 0 md 2) by (reflexivity || lia || exact Hq).
    unfold md at 1. rewrite map_size_singleton. cbn [Z.of_nat Pos.of_succ_nat Z.eqb].
    fold md. fold (app1Len md) in *.
    change (app1_total (map_to_list md) 1) with (app1Len md).
    rewrite Htotal. reflexivity.
  - unfold ReadAll, segment. cbn [rd_head].
    change (app1_total (map_to_list md) (Z.of_nat (size md))) with (app1Len md).
    rewrite Htotal. reflexivity.
  - unfold ReadAll, segment. cbn [rd_head rd_tail rs_pos rs_data].
    change (app1_total (map_to_list md) (Z.of_nat (size md))) with (app1Len md).
    rewrite Htotal.
    change (be16 (uint16 65536)) with [x00; x00].
    match goal with
    | |- SetMeta [] (NewReader ?out) ∅ = _ => set (o := out)
    end.
    assert (Hs : starts_with_soi o) by reflexivity.
    assert (He : ends_with_eoi o).
    { unfold o. apply ends_with_eoi_app; [vm_compute; lia|reflexivity]. }
    assert (Hhdr : take 4 (drop 2 o) = [xff; xe1; x00; x00]) by reflexivity.
    assert (Hscan : seekToDQT 8 [x00; x00; x00; x00] (mkRS o (len o) false)
                    = Err ErrSegmentTooSmall).
    { apply (seekToDQT_stops 8 _ o _ 2); [lia|reflexivity|apply scan_stay|].
      intros fuel p' Hp'.
      apply (seekLoop_at_small 8 fuel p' o 2 xff xe1 x00 x00);
        [assumption|exact Hhdr|discriminate|reflexivity]. }
    unfold SetMeta, NewReader. rewrite SetMetaRange_eq, Assert_valid by assumption.
    cbn [mbind outcome_bind]. rewrite map_size_empty. cbn [Z.of_nat Z.eqb].
    rewrite Hscan. reflexivity.
Qed.

(** ** Failures of the scan *)




(** ** The scenario of the specification *)

(** The source of the scenario as the specification writes it, with the
    shortest tail: an APP1 header declaring 12 bytes in front of a
    payload of 11, then DQT and EOI.  The scan lands on the last payload
    byte instead of the DQT marker and runs off the stream. *)
Lemma scenario_as_written_fails :
  let md : MetaData := {[MetaArtist := [x41]]} in
  let src := [xff; xd8; xff; xe1; x00; x0c;
              x45; x78; x69; x66; x00; x00; x00; x00; x00; x00; x00;
              xff; xdb; xff; xd9] in
  SetMeta (map_to_list md) (NewReader src) md = Err EOF /\
  ~ succeeds (SetMeta (map_to_list md) (NewReader src) md).
Proof.
  intros md src.
  assert (Hrun : SetMeta (map_to_list md) (NewReader src) md = Err EOF)
    by (vm_compute; reflexivity).
  split; [exact Hrun|]. intros [r Hr]. rewrite Hrun in Hr. discriminate.
Qed.

Lemma dqt_at_tail (pre mid : list byte) :
  dqt_at (pre ++ dqt ++ mid ++ eoi) (length pre).
Proof.
  unfold dqt_at. rewrite drop_app_length.
  destruct mid as [|a [|b mid]]; cbn; eauto.
Qed.

(** C1, with the length field of the existing APP1 segment set to 13
    (00 0D), the length its 11 payload bytes call for.  Whatever lies
    between the DQT marker and EOI, SetMeta with {Artist: "A"} succeeds
    and yields SOI, the APP1 marker, the length 38 (00 26), the EXIF and
    TIFF headers, the entry count 1, the entry 01 3B 00 02 with length 2
    and offset 26, the zero next-IFD pointer, the value 41 00, two zero
    bytes of padding, and then the source from FF DB on. *)
Theorem SetMeta_scenario (mid : list byte) :
  let md : MetaData := {[MetaArtist := [x41]]} in
  let tail := dqt ++ mid ++ eoi in
  let src := [xff; xd8; xff; xe1; x00; x0d;
              x45; x78; x69; x66; x00; x00; x00; x00; x00; x00; x00] ++ tail in
  exists r,
    SetMeta (map_to_list md) (NewReader src) md = Ok r /\
    ReadAll r =
      [xff; xd8; xff; xe1; x00; x26;
       x45; x78; x69; x66; x00; x00;
       x4d; x4d; x00; x2a; x00; x00; x00; x08;
       x00; x01;
       x01; x3b; x00; x02; x00; x00; x00; x02; x00; x00; x00; x1a;
       x00; x00; x00; x00;
       x41; x00;
       x00; x00] ++ tail.
Proof.
  intros md tail src.
  set (pre := [xff; xd8; xff; xe1; x00; x0d;
               x45; x78; x69; x66; x00; x00; x00; x00; x00; x00; x00]) in *.
  assert (Hs : starts_with_soi src) by reflexivity.
  assert (He : ends_with_eoi src).
  { unfold src, tail. rewrite !app_assoc. apply ends_with_eoi_app;
      [cbn; lia|reflexivity]. }
  assert (Hq : dqt_reachable 8 src 17).
  { split.
    - eapply (scan_skip _ _ 2 17 xff xe1 x00 x0d);
        [reflexivity|discriminate|vm_compute; discriminate|apply scan_stay].
    - apply (dqt_at_tail pre mid). }
  eexists. split.
  - unfold SetMeta, NewReader.
    rewrite (SetMetaRange_found 8 _ src 0 md 17) by (assumption || lia).
    reflexivity.
  - unfold ReadAll. cbn [rd_head rd_tail rs_pos rs_data].
    rewrite Nat2Z.id. reflexivity.
Qed.

(** ** The order of the entries *)

Lemma sortedKeys_perm (md : MetaData) : sortedKeys md ≡ₚ (map_to_list md).*1.
Proof. apply sort_Ints_perm. Qed.

Lemma sortedKeys_length (md : MetaData) : length (sortedKeys md) = size md.
Proof.
  rewrite (Permutation_length (sortedKeys_perm md)), length_fmap.
  apply length_map_to_list.
Qed.

Lemma sortedKeys_NoDup (md : MetaData) : NoDup (sortedKeys md).
Proof. rewrite sortedKeys_perm. apply NoDup_fst_map_to_list. Qed.

Lemma sortedKeys_lookup (md : MetaData) (t : Z) :
  t ∈ sortedKeys md -> exists v, md !! t = Some v.
Proof.
  rewrite sortedKeys_perm. intros Hin.
  apply list_elem_of_fmap in Hin. destruct Hin as [[t' v] [Heq Hin]].
  subst t. apply elem_of_map_to_list in Hin. eauto.
Qed.

Lemma le_sorted_lt (l : list Z) :
  Sorted Z.le l -> NoDup l -> StronglySorted Z.lt l.
Proof.
  intros Hs Hnd. apply Sorted_StronglySorted in Hs; [|intros x y z; lia].
  induction Hs as [|x l Hs IH Hall]; [constructor|].
  apply NoDup_cons in Hnd as [Hx Hnd].
  constructor; [auto|].
  rewrite Forall_forall in *. intros y Hy.
  specialize (Hall y Hy). assert (x <> y) by (intros ->; auto). lia.
Qed.

Lemma sortedKeys_ascending (md : MetaData) : StronglySorted Z.lt (sortedKeys md).
Proof.
  apply le_sorted_lt; [apply sort_Ints_sorted|apply sortedKeys_NoDup].
Qed.

(** The metadata sets whose keys are the tags the package declares. *)
Definition declared_tags (md : MetaData) : Prop :=
  forall (t : Z) (v : list byte), md !! t = Some v ->
    t = MetaArtist \/ t = MetaTitle \/ t = MetaCopyright.

(** An integer that is none of the declared constants has no code in
    [tagMarker]: the lookup yields the nil slice and its entry is written
    with eight bytes instead of twelve.  The statements about entry
    positions below are therefore about declared tags. *)
Lemma undeclared_tag_entry (md : MetaData) (off : Z) :
  tagMarker !!! 7 = [] /\ length (entries md [7] off) = 8%nat.
Proof. split; reflexivity. Qed.

Lemma tagMarker_length (t : Z) :
  t = MetaArtist \/ t = MetaTitle \/ t = MetaCopyright ->
  length (tagMarker !!! t) = 4%nat.
Proof. intros [-> | [-> | ->]]; reflexivity. Qed.

Lemma entries_nth (md : MetaData) (ks : list Z) :
  forall (off : Z) (k : nat) (t : Z),
    Forall (fun t => length (tagMarker !!! t) = 4%nat) ks ->
    ks !! k = Some t ->
    take 12 (drop (12 * k) (entries md ks off)) =
      tagMarker !!! t ++ be32 (uint32 (len (md !!! t) + 1)) ++
      be32 (uint32 (off + len (blob md (take k ks)))).
Proof.
  induction ks as [|t0 ks IH]; intros off k t Hall Hk; [discriminate|].
  apply Forall_cons in Hall as [H0 Hall].
  destruct k as [|k]; cbn [entries].
  - injection Hk as ->. rewrite Nat.mul_0_r, drop_0.
    rewrite !app_assoc.
    rewrite take_app_length'
      by (rewrite !length_app, H0; reflexivity).
    cbn [take blob flat_map]. change (len []) with 0. rewrite Z.add_0_r.
    reflexivity.
  - cbn [lookup list_lookup] in Hk.
    replace (12 * S k)%nat with (12 + 12 * k)%nat by lia.
    rewrite <- drop_drop. rewrite !app_assoc.
    rewrite drop_app_length'
      by (rewrite !length_app, H0; reflexivity).
    rewrite (IH _ k t Hall Hk). cbn [take]. rewrite blob_len_cons.
    rewrite <- !app_assoc, <- Z.add_assoc. reflexivity.
Qed.

Lemma entries_length (md : MetaData) (ks : list Z) (off : Z) :
  Forall (fun t => length (tagMarker !!! t) = 4%nat) ks ->
  length (entries md ks off) = (12 * length ks)%nat.
Proof.
  revert off. induction ks as [|t ks IH]; intros off Hall; [reflexivity|].
  apply Forall_cons in Hall as [H0 Hall]. cbn [entries length].
  rewrite !length_app, H0, IH by assumption. cbn [be32 length]. lia.
Qed.

Lemma declared_sortedKeys (md : MetaData) :
  declared_tags md ->
  Forall (fun t => length (tagMarker !!! t) = 4%nat) (sortedKeys md).
Proof.
  intros Hd. apply Forall_forall. intros t Hin.
  destruct (sortedKeys_lookup md t Hin) as [v Hv].
  apply tagMarker_length. eauto.
Qed.

(** What SetMeta returns when it returns a reader for a non-empty set. *)
Lemma SetMeta_Ok_head (floor : Z) (range : list (Z * list byte))
    (rs : ReadSeeker) (md : MetaData) (r : Reader) :
  range ≡ₚ map_to_list md -> md <> ∅ ->
  SetMetaRange floor range rs md = Ok r ->
  rd_head r = segment (map_to_list md) md /\ app1Len md <= 65536.
Proof.
  intros Hperm Hne Hr. rewrite SetMetaRange_eq in Hr.
  destruct (Assert rs) as [rs1| | |]; try discriminate.
  cbn [mbind outcome_bind] in Hr.
  destruct (Z.eqb_spec (Z.of_nat (size md)) 0) as [H0|_].
  { destruct Hne. apply map_size_empty_inv. lia. }
  rewrite (app1_total_range range md Hperm) in Hr.
  destruct (Z.ltb_spec (1024 * 64) (app1Len md)); [discriminate|].
  destruct (seekToDQT _ _ rs1) as [rs2| | |]; try discriminate.
  cbn [mbind outcome_bind] in Hr. injection Hr as <-. cbn [rd_head].
  split; [apply segment_perm; assumption|lia].
Qed.

(** The two-byte EXIF tag id of the [k]-th directory entry of an output. *)
Definition exif_tag_id (out : list byte) (k : nat) : Z :=
  match take 2 (drop (22 + 12 * k) out) with
  | [hi; lo] => declared_length hi lo
  | _ => 0
  end.

(** The first [n] entries come in ascending order of their EXIF tag id. *)
Definition ascending_exif_ids (out : list byte) (n : nat) : Prop :=
  forall j k : nat, (j < k < n)%nat -> exif_tag_id out j < exif_tag_id out k.

(** With Artist and Title set, the Artist entry (01 3B) is written before
    the Title entry (01 0E). *)
Lemma artist_entry_before_title :
  let md : MetaData := <[MetaTitle := [x54]]> {[MetaArtist := [x41]]} in
  let src := [xff; xd8; xff; xdb; xff; xd9] in
  exists r,
    SetMeta (map_to_list md) (NewReader src) md = Ok r /\
    take 4 (drop 22 (ReadAll r)) = [x01; x3b; x00; x02] /\
    take 4 (drop 34 (ReadAll r)) = [x01; x0e; x00; x02] /\
    ~ ascending_exif_ids (ReadAll r) 2.
Proof.
  intros md src. eexists. split; [vm_compute; reflexivity|].
  split; [reflexivity|]. split; [reflexivity|].
  intros H. specialize (H 0%nat 1%nat ltac:(lia)). vm_compute in H.
  discriminate.
Qed.

(** C2, as the code has it.  For a non-empty metadata set the entries,
    and the values in the blob, are written in ascending order of the
    integer value of the tag constant (Artist = 0, Title = 1,
    Copyright = 2, so Artist 01 3B precedes Title 01 0E, which precedes
    Copyright 82 98), whatever the iteration order of the map: the key
    list is strictly ascending, the segment is laid out along it, and for
    declared tags the [k]-th entry carries the code of the [k]-th key. *)
Theorem SetMeta_entries_in_tag_order (range : list (Z * list byte))
    (rs : ReadSeeker) (md : MetaData) (r : Reader) :
  range ≡ₚ map_to_list md -> md <> ∅ -> SetMeta range rs md = Ok r ->
  let ks := sortedKeys md in
  let n := Z.of_nat (size md) in
  StronglySorted Z.lt ks /\ ks ≡ₚ (map_to_list md).*1 /\
  rd_head r =
    soi ++ app1 ++ be16 (uint16 (app1Len md)) ++ exif ++ tiff ++
    be16 (uint16 n) ++ entries md ks (ifd0_offset n) ++ ifd0Next ++
    blob md ks ++ segPad /\
  (declared_tags md -> forall (k : nat) (t : Z), ks !! k = Some t ->
     take 4 (drop (22 + 12 * k) (ReadAll r)) = tagMarker !!! t) /\
  MetaArtist < MetaTitle < MetaCopyright.
Proof.
  intros Hperm Hne Hr ks n.
  destruct (SetMeta_Ok_head 8 range rs md r Hperm Hne Hr) as [Hhead _].
  split; [apply sortedKeys_ascending|].
  split; [apply sortedKeys_perm|].
  split; [exact Hhead|].
  split; [|unfold MetaArtist, MetaTitle, MetaCopyright; lia].
  intros Hd k t Hk. unfold ReadAll. rewrite Hhead. unfold segment.
  fold (sortedKeys md). fold ks. fold n.
  set (rest := drop _ (rs_data (rd_tail r))).
  pose proof (entries_nth md ks (ifd0_offset n) k t
                (declared_sortedKeys md Hd) Hk) as Hnth.
  assert (Hkn : (k < length ks)%nat) by (eapply lookup_lt_Some; eauto).
  pose proof (entries_length md ks (ifd0_offset n)
                (declared_sortedKeys md Hd)) as Hlen.
  set (hdr := soi ++ app1 ++ be16 (uint16 (app1_total (map_to_list md) n))
                ++ exif ++ tiff ++ be16 (uint16 n)).
  replace (_ ++ rest) with
    (hdr ++ entries md ks (ifd0_offset n) ++
       (ifd0Next ++ blob md ks ++ segPad ++ rest))
    by (unfold hdr; rewrite <- !app_assoc; reflexivity).
  rewrite <- drop_drop.
  rewrite (drop_app_length' hdr) by reflexivity.
  rewrite drop_app_le by lia.
  rewrite take_app_le by (rewrite length_drop; lia).
  apply (f_equal (take 4)) in Hnth. rewrite take_take in Hnth.
  cbn [Nat.min] in Hnth. rewrite Hnth.
  rewrite take_app_length' by (symmetry; apply tagMarker_length;
    destruct (sortedKeys_lookup md t) as [v Hv];
      [eapply list_elem_of_lookup_2; eauto|eauto]).
  reflexivity.
Qed.

Lemma declared_tags_empty : declared_tags ∅.
Proof. intros t v H. rewrite lookup_empty in H. discriminate. Qed.

Lemma declared_tags_insert (t : Z) (v : list byte) (md : MetaData) :
  t = MetaArtist \/ t = MetaTitle \/ t = MetaCopyright ->
  declared_tags md -> declared_tags (<[t := v]> md).
Proof.
  intros Ht Hd t' v' H. destruct (decide (t = t')) as [<-|Hne]; [exact Ht|].
  rewrite lookup_insert_ne in H by assumption. eauto.
Qed.

Lemma SetMeta_entries_in_tag_order_witness :
  exists r,
    SetMeta (map_to_list (<[MetaTitle := [x54]]> (<[MetaArtist := [x41]]> ∅)))
            (NewReader [xff; xd8; xff; xdb; xff; xd9])
            (<[MetaTitle := [x54]]> (<[MetaArtist := [x41]]> ∅)) = Ok r /\
    take 4 (drop 22 (ReadAll r)) = tagMarker !!! MetaArtist /\
    take 4 (drop 34 (ReadAll r)) = tagMarker !!! MetaTitle.
Proof.
  eexists. split; [vm_compute; reflexivity|].
  match goal with
  | |- take 4 (drop 22 (ReadAll ?r)) = _ /\ _ =>
      destruct (SetMeta_entries_in_tag_order
                  (map_to_list (<[MetaTitle := [x54]]> (<[MetaArtist := [x41]]> ∅)))
                  (NewReader [xff; xd8; xff; xdb; xff; xd9])
                  (<[MetaTitle := [x54]]> (<[MetaArtist := [x41]]> ∅)) r)
        as (_ & _ & _ & Hcode & _)
  end.
  - reflexivity.
  - intros H. apply (f_equal (fun m : MetaData => m !! MetaTitle)) in H.
    rewrite lookup_insert_eq, lookup_empty in H. discriminate.
  - vm_compute. reflexivity.
  - assert (Hd : declared_tags (<[MetaTitle := [x54]]> (<[MetaArtist := [x41]]> ∅))).
    { apply declared_tags_insert; [auto|].
      apply declared_tags_insert; [auto|]. apply declared_tags_empty. }
    split.
    + apply (Hcode Hd 0%nat MetaArtist). vm_compute. reflexivity.
    + apply (Hcode Hd 1%nat MetaTitle). vm_compute. reflexivity.
Defined.

(** ** Offsets into the value blob *)

(** The value of a big-endian byte string. *)
Definition be_value (l : list byte) : Z :=
  foldl (fun a b => 256 * a + Z_of_byte b) 0 l.

Lemma be_value_be32 (v : Z) :
  0 <= v < 2 ^ 32 -> be_value (be32 (uint32 v)) = v.
Proof.
  intros Hv. unfold uint32. rewrite Z.mod_small by assumption.
  unfold be_value, be32. cbn [foldl]. rewrite !Z_of_byte_of_Z.
  rewrite !Z.shiftr_div_pow2 by lia.
  change (2 ^ 32) with 4294967296 in Hv.
  change (2 ^ 24) with 16777216. change (2 ^ 16) with 65536.
  change (2 ^ 8) with 256.
  Z.div_mod_to_equations. lia.
Qed.

(** A directory entry as a reader of the file sees it. *)
Record ifd_entry : Type := mkEntry {
  e_code : list byte;
  e_length : Z;
  e_offset : Z
}.

(** The [k]-th entry of IFD0 in an output: the directory starts 22 bytes
    in (SOI, APP1 marker, length, EXIF header, TIFF header, count). *)
Definition entry_at (out : list byte) (k : nat) : ifd_entry :=
  let e := take 12 (drop (22 + 12 * k) out) in
  mkEntry (take 4 e) (be_value (take 4 (drop 4 e))) (be_value (take 4 (drop 8 e))).

(** Reading [n] bytes at offset [off] from the start of the TIFF header,
    which is 12 bytes in. *)
Definition read_from_tiff (out : list byte) (off n : Z) : list byte :=
  take (Z.to_nat n) (drop (12 + Z.to_nat off) out).

Lemma blob_app (md : MetaData) (k1 k2 : list Z) :
  blob md (k1 ++ k2) = blob md k1 ++ blob md k2.
Proof. unfold blob. apply flat_map_app. Qed.

Lemma blob_split (md : MetaData) (ks : list Z) (k : nat) (t : Z) :
  ks !! k = Some t ->
  blob md ks =
    blob md (take k ks) ++ (md !!! t ++ [x00]) ++ blob md (drop (S k) ks).
Proof.
  intros Hk. rewrite <- (take_drop_middle ks k t Hk) at 1.
  rewrite blob_app. unfold blob at 2 4. cbn [flat_map]. reflexivity.
Qed.

(** The blob is as long as the values, each with its NUL, add up to. *)
Definition keys_size (md : MetaData) (ks : list Z) : Z :=
  foldr (fun t a => len (md !!! t) + 1 + a) 0 ks.

Lemma blob_len (md : MetaData) (ks : list Z) :
  len (blob md ks) = keys_size md ks.
Proof.
  induction ks as [|t ks IH]; [reflexivity|].
  rewrite blob_len_cons, IH. reflexivity.
Qed.

Lemma keys_size_perm (md : MetaData) (k1 k2 : list Z) :
  k1 ≡ₚ k2 -> keys_size md k1 = keys_size md k2.
Proof.
  induction 1 as [|x l l' _ IH|x y l|l l' l'' _ IH1 _ IH2];
    unfold keys_size in *; simpl; lia.
Qed.

Lemma keys_size_values (md : MetaData) (l : list (Z * list byte)) :
  Forall (fun tv => md !! tv.1 = Some tv.2) l ->
  keys_size md l.*1 = values_size l.
Proof.
  induction 1 as [|[t v] l Htv _ IH]; [reflexivity|].
  cbn [fst snd] in Htv. unfold keys_size, values_size in *.
  cbn [fmap list_fmap foldr fst snd].
  rewrite (lookup_total_correct md t v Htv). rewrite <- IH. reflexivity.
Qed.

Lemma blob_len_sortedKeys (md : MetaData) :
  len (blob md (sortedKeys md)) = values_size (map_to_list md).
Proof.
  rewrite blob_len, (keys_size_perm md _ _ (sortedKeys_perm md)).
  apply keys_size_values. apply Forall_forall. intros [t v] Hin.
  apply elem_of_map_to_list in Hin. exact Hin.
Qed.

Lemma layout_read (hdr E nx Bk val Brest tl : list byte) :
  take (length val)
       (drop (length hdr + length E + length nx + length Bk)
             (hdr ++ E ++ nx ++ (Bk ++ val ++ Brest) ++ tl)) = val.
Proof.
  replace (hdr ++ E ++ nx ++ (Bk ++ val ++ Brest) ++ tl)
    with ((hdr ++ E ++ nx ++ Bk) ++ val ++ Brest ++ tl)
    by (rewrite <- !app_assoc; reflexivity).
  rewrite drop_app_length' by (rewrite !length_app; lia).
  rewrite take_app_length. reflexivity.
Qed.

Lemma segment_entry (md : MetaData) (k : nat) (t : Z) (rest : list byte) :
  declared_tags md -> sortedKeys md !! k = Some t ->
  take 12 (drop (22 + 12 * k) (segment (map_to_list md) md ++ rest)) =
    tagMarker !!! t ++ be32 (uint32 (len (md !!! t) + 1)) ++
    be32 (uint32 (ifd0_offset (Z.of_nat (size md)) +
                  len (blob md (take k (sortedKeys md))))).
Proof.
  intros Hd Hk. unfold segment. fold (sortedKeys md).
  set (ks := sortedKeys md) in *. set (n := Z.of_nat (size md)).
  pose proof (declared_sortedKeys md Hd) as Hall. fold ks in Hall.
  assert (Hkn : (k < length ks)%nat) by (eapply lookup_lt_Some; eauto).
  pose proof (entries_length md ks (ifd0_offset n) Hall) as Hlen.
  set (hdr := soi ++ app1 ++ be16 (uint16 (app1_total (map_to_list md) n))
                ++ exif ++ tiff ++ be16 (uint16 n)).
  replace (_ ++ rest) with
    (hdr ++ entries md ks (ifd0_offset n) ++
       (ifd0Next ++ blob md ks ++ segPad ++ rest))
    by (unfold hdr; rewrite <- !app_assoc; reflexivity).
  rewrite <- drop_drop.
  rewrite (drop_app_length' hdr) by reflexivity.
  rewrite drop_app_le by lia.
  rewrite take_app_le by (rewrite length_drop; lia).
  apply entries_nth; assumption.
Qed.

(** C4, as the code has it: for the declared tags.  For a non-empty
    metadata set whose keys are declared tags and that SetMeta accepts,
    the [k]-th directory entry of the output belongs to the
    [k]-th tag in ascending order: it carries the tag's code, its length
    field is the length of the tag's value plus one, and its offset field
    is the IFD0 offset (8 + 2 + 12 x count + 4) plus the lengths of the
    values of the tags before it.  Reading that many bytes at that
    offset from the start of the TIFF header yields the value followed by
    one NUL, and the bytes read lie inside the value blob. *)
Theorem SetMeta_offsets (range : list (Z * list byte)) (rs : ReadSeeker)
    (md : MetaData) (r : Reader) (k : nat) :
  range ≡ₚ map_to_list md -> md <> ∅ -> declared_tags md ->
  SetMeta range rs md = Ok r -> (k < size md)%nat ->
  let out := ReadAll r in
  let n := Z.of_nat (size md) in
  let e := entry_at out k in
  exists (t : Z) (v : list byte),
    sortedKeys md !! k = Some t /\ md !! t = Some v /\
    e_code e = tagMarker !!! t /\
    e_length e = len v + 1 /\
    e_offset e = ifd0_offset n + len (blob md (take k (sortedKeys md))) /\
    read_from_tiff out (e_offset e) (e_length e) = v ++ [x00] /\
    ifd0_offset n = 8 + 2 + 12 * n + 4 /\
    ifd0_offset n <= e_offset e /\
    e_offset e + e_length e <= ifd0_offset n + len (blob md (sortedKeys md)).
Proof.
  intros Hperm Hne Hd Hr Hk out n e.
  destruct (SetMeta_Ok_head 8 range rs md r Hperm Hne Hr) as [Hhead Hcap].
  set (ks := sortedKeys md).
  assert (Hlenks : length ks = size md) by apply sortedKeys_length.
  destruct (lookup_lt_is_Some_2 ks k ltac:(lia)) as [t Ht].
  destruct (sortedKeys_lookup md t) as [v Hv];
    [eapply list_elem_of_lookup_2; eauto|].
  pose proof (lookup_total_correct md t v Hv) as Htot.
  exists t, v. split; [exact Ht|]. split; [exact Hv|].
  (* sizes *)
  pose proof (blob_split md ks k t Ht) as Hsplit. rewrite Htot in Hsplit.
  pose proof (blob_len_sortedKeys md) as Hblob. fold ks in Hblob.
  assert (Hoff0 : ifd0_offset n = 14 + 12 * n).
  { unfold ifd0_offset. change (len tiff) with 8.
    change (len ifd0Next) with 4. lia. }
  assert (Hsum : len (blob md ks) =
                 len (blob md (take k ks)) + (len v + 1) +
                 len (blob md (drop (S k) ks))).
  { rewrite Hsplit at 1. rewrite !len_app. unfold len. cbn [length]. lia. }
  assert (Htotal : app1Len md = 10 + ifd0_offset n + len (blob md ks)).
  { unfold app1Len, app1_total. fold n. rewrite Hblob.
    change (len exif) with 6. lia. }
  pose proof (len_nonneg v). pose proof (len_nonneg (blob md (take k ks))).
  pose proof (len_nonneg (blob md (drop (S k) ks))).
  assert (Hn : 0 <= n) by (unfold n; lia).
  (* the entry *)
  set (O := ifd0_offset n + len (blob md (take k ks))).
  assert (Hentry : take 12 (drop (22 + 12 * k) out) =
            tagMarker !!! t ++ be32 (uint32 (len v + 1)) ++ be32 (uint32 O)).
  { unfold out, ReadAll. rewrite Hhead.
    rewrite (segment_entry md k t _ Hd Ht), Htot. reflexivity. }
  assert (Hcode : length (tagMarker !!! t) = 4%nat)
    by (apply tagMarker_length; eauto).
  assert (HL : be_value (be32 (uint32 (len v + 1))) = len v + 1)
    by (apply be_value_be32; change (2 ^ 32) with 4294967296; lia).
  assert (HO : be_value (be32 (uint32 O)) = O)
    by (apply be_value_be32; change (2 ^ 32) with 4294967296; unfold O; lia).
  assert (He : e = mkEntry (tagMarker !!! t) (len v + 1) O).
  { unfold e, entry_at. rewrite Hentry.
    destruct (tagMarker !!! t) as [|a [|b [|c [|d [|x l]]]]];
      try discriminate Hcode.
    unfold be32 in *. cbn [app take drop]. rewrite HL, HO. reflexivity. }
  rewrite He. cbn [e_code e_length e_offset].
  split; [reflexivity|]. split; [reflexivity|]. split; [reflexivity|].
  split; [|unfold O; lia].
  (* the value *)
  unfold read_from_tiff, out, ReadAll. rewrite Hhead. unfold segment.
  fold (sortedKeys md). fold ks. fold n.
  set (rest := drop _ (rs_data (rd_tail r))).
  set (hdr := soi ++ app1 ++ be16 (uint16 (app1_total (map_to_list md) n))
                ++ exif ++ tiff ++ be16 (uint16 n)).
  replace (_ ++ rest) with
    (hdr ++ entries md ks (ifd0_offset n) ++ ifd0Next ++
       (blob md (take k ks) ++ (v ++ [x00]) ++ blob md (drop (S k) ks)) ++
       (segPad ++ rest))
    by (unfold hdr; rewrite <- Hsplit, <- !app_assoc; reflexivity).
  pose proof (entries_length md ks (ifd0_offset n)
                (declared_sortedKeys md Hd)) as HlenE.
  replace (Z.to_nat (len v + 1)) with (length (v ++ [x00]))
    by (rewrite length_app; unfold len; cbn [length]; lia).
  replace (12 + Z.to_nat O)%nat
    with (length hdr + length (entries md ks (ifd0_offset n)) +
          length ifd0Next + length (blob md (take k ks)))%nat.
  - apply layout_read.
  - rewrite HlenE, Hlenks. change (length hdr) with 22%nat.
    change (length ifd0Next) with 4%nat. unfold O, len, n in *. lia.
Qed.

Lemma SetMeta_offsets_witness :
  exists r,
    SetMeta (map_to_list (<[MetaTitle := [x54]]> (<[MetaArtist := [x41]]> ∅)))
            (NewReader [xff; xd8; xff; xdb; xff; xd9])
            (<[MetaTitle := [x54]]> (<[MetaArtist := [x41]]> ∅)) = Ok r /\
    e_offset (entry_at (ReadAll r) 1) = 40 /\
    read_from_tiff (ReadAll r) (e_offset (entry_at (ReadAll r) 1))
                   (e_length (entry_at (ReadAll r) 1)) = [x54; x00].
Proof.
  eexists. split; [vm_compute; reflexivity|].
  match goal with
  | |- e_offset (entry_at (ReadAll ?r) 1) = _ /\ _ =>
      destruct (SetMeta_offsets
                  (map_to_list (<[MetaTitle := [x54]]> (<[MetaArtist := [x41]]> ∅)))
                  (NewReader [xff; xd8; xff; xdb; xff; xd9])
                  (<[MetaTitle := [x54]]> (<[MetaArtist := [x41]]> ∅)) r 1)
        as (t & v & Ht & Hv & _ & _ & Hoff & Hread & _)
  end.
  - reflexivity.
  - intros H. apply (f_equal (fun m : MetaData => m !! MetaTitle)) in H.
    rewrite lookup_insert_eq, lookup_empty in H. discriminate.
  - apply declared_tags_insert; [auto|].
    apply declared_tags_insert; [auto|]. apply declared_tags_empty.
  - vm_compute. reflexivity.
  - vm_compute. lia.
  - vm_compute in Ht. injection Ht as <-.
    vm_compute in Hv. injection Hv as <-.
    split; [rewrite Hoff; vm_compute; reflexivity|exact Hread].
Defined.

(** A key that is none of the declared constants: SetMeta accepts the
    set {7: "A"}, but writes no code for the tag, so the one entry of the
    directory is four bytes short.  Read as a 12-byte entry it shows the
    code 00 00 00 02, the length 26 and the offset 0, and the bytes read
    there are the TIFF header and what follows, not the value and its
    NUL. *)
Lemma undeclared_tag_offsets_misread :
  let md : MetaData := {[7 := [x41]]} in
  let src := [xff; xd8; xff; xdb; x00; x04; xff; xd9] in
  md <> ∅ /\
  exists r,
    SetMeta (map_to_list md) (NewReader src) md = Ok r /\
    e_code (entry_at (ReadAll r) 0) = [x00; x00; x00; x02] /\
    e_length (entry_at (ReadAll r) 0) = 26 /\
    e_offset (entry_at (ReadAll r) 0) = 0 /\
    (forall (t : Z) (v : list byte), md !! t = Some v ->
       read_from_tiff (ReadAll r) (e_offset (entry_at (ReadAll r) 0))
                      (e_length (entry_at (ReadAll r) 0)) <> v ++ [x00]).
Proof.
  intros md src. split.
  { intros H. apply (f_equal (fun m : MetaData => m !! 7)) in H.
    unfold md in H. rewrite lookup_singleton_eq, lookup_empty in H.
    discriminate. }
  eexists. split; [vm_compute; reflexivity|].
  split; [vm_compute; reflexivity|].
  split; [vm_compute; reflexivity|].
  split; [vm_compute; reflexivity|].
  intros t v Hv. unfold md in Hv.
  apply lookup_singleton_Some in Hv as [_ <-].
  vm_compute. discriminate.
Qed.

(** * Further properties of the package *)

(** ** Assert on short streams, and the cursor it leaves *)

(** X1. A stream of fewer than two bytes never passes Assert: the empty
    stream fails with the io.EOF of the first read, and a one-byte
    stream with "missing SOI marker" (the second byte of the buffer is
    still zero), or with io.EOF when the stream reports the end together
    with its last byte. *)
Theorem Assert_short_stream (s : list byte) (pos : Z) (e : bool) :
  (length s < 2)%nat ->
  Assert (mkRS s pos e) =
    Err (if (length s =? 0)%nat || e then EOF else ErrMissingSOI).
Proof.
  intros Hlen. destruct s as [|b [|c s]]; [| |cbn [length] in Hlen; lia].
  - reflexivity.
  - destruct e; [reflexivity|]. destruct b; reflexivity.
Qed.

Lemma Assert_short_stream_witness :
  Assert (mkRS [xff] 0 false) = Err ErrMissingSOI.
Proof. apply (Assert_short_stream [xff] 0 false). cbn [length]. lia. Defined.

Lemma Assert_Ok_inv (rs rs' : ReadSeeker) :
  Assert rs = Ok rs' ->
  starts_with_soi (rs_data rs) /\ ends_with_eoi (rs_data rs) /\
  rs' = mkRS (rs_data rs) (len (rs_data rs)) (rs_eofWithData rs).
Proof.
  destruct rs as [s pos e]. cbn [rs_data rs_eofWithData]. intros HA.
  destruct (le_lt_dec 2 (length s)) as [Hlen|Hlen]; cycle 1.
  { destruct s as [|b [|c s]]; [| |cbn [length] in Hlen; lia].
    - discriminate.
    - destruct e; [discriminate|]. destruct b; discriminate. }
  assert (Hcase : (e = false \/ (3 <= length s)%nat) \/
                  (e = true /\ length s = 2%nat)).
  { destruct e; [|auto]. destruct (decide (length s = 2%nat)); [auto|].
    left; right; lia. }
  destruct Hcase as [He|[-> Hl]].
  - rewrite Assert_eq in HA by assumption.
    unfold starts_with_soi, ends_with_eoi.
    repeat case_bool_decide; try discriminate.
    injection HA as <-. auto.
  - rewrite Assert_eof_first_read in HA by assumption. discriminate.
Qed.

(** X2. When Assert returns no error, both markers are there, the bytes
    and the kind of the stream are as before, and the cursor stands at
    the end of the stream: the offset on entry plays no part and is not
    restored. *)
Theorem Assert_leaves_cursor_at_end (rs rs' : ReadSeeker) :
  Assert rs = Ok rs' ->
  starts_with_soi (rs_data rs) /\ ends_with_eoi (rs_data rs) /\
  rs' = mkRS (rs_data rs) (len (rs_data rs)) (rs_eofWithData rs) /\
  (forall pos : Z,
     Assert (mkRS (rs_data rs) pos (rs_eofWithData rs)) = Ok rs').
Proof.
  intros HA. destruct (Assert_Ok_inv rs rs' HA) as (Hs & He & Hrs').
  repeat split; try assumption.
  intros pos. destruct rs as [s pos0 e]. exact HA.
Qed.

Lemma Assert_leaves_cursor_at_end_witness :
  Assert (mkRS [xff; xd8; xff; xd9] 3 false) =
  Ok (mkRS [xff; xd8; xff; xd9] 4 false).
Proof.
  apply (Assert_leaves_cursor_at_end (mkRS [xff; xd8; xff; xd9] 1 false)).
  reflexivity.
Defined.

(** ** Round trip of the scratch encodings *)

Lemma declared_length_be16 (v : Z) :
  0 <= v < 65536 ->
  declared_length (byte_of_Z (Z.shiftr v 8)) (byte_of_Z v) = v.
Proof.
  intros Hv. unfold declared_length. rewrite !Z_of_byte_of_Z.
  rewrite Z.shiftr_div_pow2 by lia. change (2 ^ 8) with 256.
  Z.div_mod_to_equations. lia.
Qed.

Lemma uint16_range (n : Z) : 0 <= uint16 n < 65536.
Proof. unfold uint16. change (2 ^ 16) with 65536. apply Z.mod_pos_bound. lia. Qed.

Lemma uint32_range (n : Z) : 0 <= uint32 n < 2 ^ 32.
Proof. unfold uint32. apply Z.mod_pos_bound. lia. Qed.

(** X3. [p.bytes(n, 2)] returns two bytes that binary.BigEndian.Uint16
    reads back as [n mod 2^16], and leaves the last two bytes of the
    scratch alone; [p.bytes(n, 4)] returns four bytes whose big-endian
    value is [n mod 2^32]. *)
Theorem scratch_bytes_round_trip (a b c d : byte) (n : Z) :
  (exists r p', scratch_bytes [a; b; c; d] n 2 = Ok (r, p') /\
     length r = 2%nat /\ Uint16 r = Ok (n mod 2 ^ 16) /\
     p' = r ++ [c; d]) /\
  (exists r p', scratch_bytes [a; b; c; d] n 4 = Ok (r, p') /\
     length r = 4%nat /\ be_value r = n mod 2 ^ 32 /\ p' = r).
Proof.
  split.
  - exists (be16 (uint16 n)), (be16 (uint16 n) ++ [c; d]).
    split; [reflexivity|]. split; [reflexivity|]. split; [|reflexivity].
    unfold be16. rewrite Uint16_declared.
    rewrite declared_length_be16 by apply uint16_range. reflexivity.
  - exists (be32 (uint32 n)), (be32 (uint32 n)).
    split; [reflexivity|]. split; [reflexivity|]. split; [|reflexivity].
    replace (be32 (uint32 n)) with (be32 (uint32 (uint32 n))).
    + apply be_value_be32, uint32_range.
    + f_equal. unfold uint32. apply Z.mod_mod. lia.
Qed.

(** ** What the scan can return *)

Lemma seekLoop_outcomes (floor : Z) (fuel : nat) :
  0 <= floor ->
  forall (p : scratch) (rs : ReadSeeker),
    (4 <= length p)%nat -> 0 <= rs_pos rs ->
    (0 < fuel)%nat -> len (rs_data rs) - rs_pos rs < Z.of_nat fuel ->
    (exists q, seekLoop floor fuel p rs =
                 Ok (mkRS (rs_data rs) (q + 4) (rs_eofWithData rs)) /\
               rs_pos rs <= q /\ q + 4 <= len (rs_data rs) /\
               take 2 (drop (Z.to_nat q) (rs_data rs)) = dqt) \/
    (exists e, seekLoop floor fuel p rs = Err e /\
               (e = EOF \/ e = ErrNoSegmentHeader \/ e = ErrSegmentTooSmall)).
Proof.
  intros Hfloor. induction fuel as [|fuel IH]; intros p rs Hp Hpos Hfuel0 Hfuel;
    [lia|].
  destruct rs as [s pos e]. cbn [rs_data rs_pos rs_eofWithData] in *.
  cbn [seekLoop]. unfold Read. cbn [rs_data rs_pos rs_eofWithData].
  destruct (Z.leb_spec (len s) pos) as [Hend|Hin]; [right; eauto|].
  assert (Hsrc : length (drop (Z.to_nat pos) s) = (length s - Z.to_nat pos)%nat)
    by apply length_drop.
  remember (drop (Z.to_nat pos) s) as src eqn:Hdrop.
  destruct (e && _); [right; eauto|].
  destruct (Z.eqb_spec (Z.of_nat (Nat.min (length p) (length src))) 4)
    as [Hn|Hn]; cbn [negb]; [|right; eauto].
  replace (Nat.min (length p) (length src)) with 4%nat by lia.
  destruct src as [|b0 [|b1 [|b2 [|b3 src]]]]; cbn [length] in Hn, Hsrc;
    try lia.
  cbn [take app].
  rewrite !slice_ok by (cbn [length]; lia).
  cbn [Nat.sub drop take mbind outcome_bind Uint16].
  unfold bytes_Equal. case_bool_decide as Hm.
  - left. exists pos. split; [reflexivity|]. split; [lia|].
    split; [unfold len in *; lia|]. rewrite <- Hdrop. exact Hm.
  - set (u := Z.lor (Z_of_byte b3) (Z.shiftl (Z_of_byte b2) 8)).
    assert (Hu : u = declared_length b2 b3).
    { pose proof (Uint16_declared b2 b3 []) as H. unfold Uint16 in H.
      injection H as H. exact H. }
    pose proof (declared_length_range b2 b3) as Hrange.
    destruct (Z.ltb_spec (u - 2) floor) as [Hsmall|Hbig]; [right; eauto|].
    unfold Seek. cbn [rs_pos rs_data rs_eofWithData].
    destruct (Z.ltb_spec (pos + Z.of_nat 4 + (u - 2)) 0) as [Hneg|Hnn]; [lia|].
    cbn [mbind outcome_bind].
    match goal with
    | |- context [seekLoop floor fuel ?p' ?rs'] =>
        destruct (IH p' rs') as [(q & Hq & Hge & Hfit & Hdqt)|(e' & He')]
    end; cbn [rs_pos rs_data rs_eofWithData length] in *;
      try (unfold len in *; lia).
    + left. exists q. rewrite Hq. split; [reflexivity|].
      split; [lia|]. split; assumption.
    + right. eauto.
Qed.

(** X4. The scan always comes to an end, on every stream and for both
    floors.  It either returns with the cursor on an FF DB marker, at an
    offset of at least 2 with at least four bytes left and the bytes of
    the stream as they were, or it fails with io.EOF, "couldn't read next
    segment marker and length" or "reported segment length too small";
    no seek of the scan ever fails and nothing panics. *)
Theorem seekToDQT_outcome (floor : Z) (p : scratch) (rs : ReadSeeker) :
  0 <= floor -> (4 <= length p)%nat ->
  (exists q, seekToDQT floor p rs =
               Ok (mkRS (rs_data rs) q (rs_eofWithData rs)) /\
             2 <= q /\ q + 4 <= len (rs_data rs) /\
             take 2 (drop (Z.to_nat q) (rs_data rs)) = dqt) \/
  (exists e, seekToDQT floor p rs = Err e /\
             (e = EOF \/ e = ErrNoSegmentHeader \/ e = ErrSegmentTooSmall)).
Proof.
  intros Hfloor Hp. unfold seekToDQT.
  change (Seek rs 2 SeekStart)
    with (Ok (mkRS (rs_data rs) 2 (rs_eofWithData rs))).
  cbn [mbind outcome_bind rs_data].
  destruct (seekLoop_outcomes floor (S (length (rs_data rs))) Hfloor p
              (mkRS (rs_data rs) 2 (rs_eofWithData rs)))
    as [(q & Hq & Hge & Hfit & Hdqt)|(e & He & Hcases)];
    cbn [rs_pos rs_data rs_eofWithData] in *; try (unfold len; lia).
  - left. exists q. rewrite Hq. cbn [mbind outcome_bind].
    unfold Seek. cbn [rs_pos rs_data rs_eofWithData].
    destruct (Z.ltb_spec (q + 4 + -4) 0); [lia|].
    replace (q + 4 + -4) with q by lia. auto.
  - right. exists e. rewrite He. auto.
Qed.

Lemma seekToDQT_outcome_witness :
  (exists q, seekToDQT 8 [x00; x00; x00; x00]
               (NewReader [xff; xd8; xff; xdb; x00; x04; xff; xd9]) =
               Ok (mkRS [xff; xd8; xff; xdb; x00; x04; xff; xd9] q false) /\
             2 <= q /\ q + 4 <= 8 /\
             take 2 (drop (Z.to_nat q) [xff; xd8; xff; xdb; x00; x04; xff; xd9])
               = dqt) \/
  (exists e, seekToDQT 8 [x00; x00; x00; x00]
               (NewReader [xff; xd8; xff; xdb; x00; x04; xff; xd9]) = Err e /\
             (e = EOF \/ e = ErrNoSegmentHeader \/ e = ErrSegmentTooSmall)).
Proof.
  apply (seekToDQT_outcome 8 [x00; x00; x00; x00]
           (NewReader [xff; xd8; xff; xdb; x00; x04; xff; xd9]));
    [lia|cbn [length]; lia].
Defined.

(** ** The scan succeeds exactly on a segment chain that leads to DQT *)

Lemma header_at (s : list byte) (a : nat) :
  (a + 4 <= length s)%nat ->
  exists b0 b1 b2 b3, take 4 (drop a s) = [b0; b1; b2; b3].
Proof.
  intros H. pose proof (length_drop s a) as Hl.
  destruct (drop a s) as [|b0 [|b1 [|b2 [|b3 l]]]]; cbn [length] in Hl;
    try lia.
  exists b0, b1, b2, b3. reflexivity.
Qed.

Lemma seekLoop_walk (floor : Z) (fuel : nat) :
  0 <= floor ->
  forall (p : scratch) (s : list byte) (a : nat) (rs' : ReadSeeker),
    length p = 4%nat ->
    seekLoop floor fuel p (mkRS s (Z.of_nat a) false) = Ok rs' ->
    exists q, scan_steps floor s a q /\ dqt_at s q /\
              rs' = mkRS s (Z.of_nat q + 4) false.
Proof.
  intros Hfloor. induction fuel as [|fuel IH]; intros p s a rs' Hp Hrun;
    [discriminate|].
  destruct (le_lt_dec (length s) a) as [Hend|Hin].
  { rewrite seekLoop_at_end in Hrun by assumption. discriminate. }
  destruct (le_lt_dec (a + 4) (length s)) as [Hfit|Hshort]; cycle 1.
  { rewrite seekLoop_at_short in Hrun by (assumption || lia). discriminate. }
  destruct (header_at s a Hfit) as (b0 & b1 & b2 & b3 & Hhdr).
  rewrite (seekLoop_header floor fuel p s a b0 b1 b2 b3 Hp Hhdr) in Hrun.
  unfold bytes_Equal in Hrun. case_bool_decide as Hm.
  - injection Hrun as <-. injection Hm as -> ->.
    exists a. split; [apply scan_stay|]. split; [exists b2, b3; exact Hhdr|].
    reflexivity.
  - destruct (Z.ltb_spec (declared_length b2 b3 - 2) floor) as [Hs|Hb];
      [discriminate|].
    unfold Seek in Hrun. cbn [rs_pos rs_data rs_eofWithData] in Hrun.
    destruct (Z.ltb_spec (Z.of_nat a + 4 + (declared_length b2 b3 - 2)) 0);
      [lia|].
    cbn [mbind outcome_bind] in Hrun.
    replace (Z.of_nat a + 4 + (declared_length b2 b3 - 2))
      with (Z.of_nat (a + 4 + Z.to_nat (declared_length b2 b3 - 2)))
      in Hrun by lia.
    destruct (IH [b0; b1; b2; b3] s _ rs' eq_refl Hrun)
      as (q & Hsteps & Hdqt & ->).
    exists q. split; [|auto]. eapply scan_skip; eauto.
Qed.

Lemma seekToDQT_Ok_inv (floor : Z) (p : scratch) (s : list byte) (pos : Z)
    (rs' : ReadSeeker) :
  0 <= floor -> length p = 4%nat ->
  seekToDQT floor p (mkRS s pos false) = Ok rs' ->
  exists q, dqt_reachable floor s q /\ rs' = mkRS s (Z.of_nat q) false.
Proof.
  intros Hfloor Hp. unfold seekToDQT.
  change (Seek (mkRS s pos false) 2 SeekStart) with (Ok (mkRS s 2 false)).
  cbn [mbind outcome_bind rs_data].
  destruct (seekLoop floor _ p _) as [rs1| | |] eqn:Hloop; try discriminate.
  change 2 with (Z.of_nat 2) in Hloop.
  destruct (seekLoop_walk floor _ Hfloor p s 2 rs1 Hp Hloop)
    as (q & Hsteps & Hdqt & ->).
  cbn [mbind outcome_bind]. unfold Seek.
  cbn [rs_pos rs_data rs_eofWithData].
  destruct (Z.ltb_spec (Z.of_nat q + 4 + -4) 0); [lia|].
  intros [= <-]. exists q. split; [split; assumption|].
  f_equal. lia.
Qed.

Lemma dqt_reachable_unique (floor : Z) (s : list byte) (q1 q2 : nat) :
  0 <= floor ->
  dqt_reachable floor s q1 -> dqt_reachable floor s q2 -> q1 = q2.
Proof.
  intros Hfloor H1 H2.
  pose proof (seekToDQT_found floor Hfloor [x00; x00; x00; x00] s 0 q1
                eq_refl H1) as E1.
  pose proof (seekToDQT_found floor Hfloor [x00; x00; x00; x00] s 0 q2
                eq_refl H2) as E2.
  rewrite E1 in E2. injection E2 as E. lia.
Qed.

(** X5. On an in-memory stream the scan succeeds exactly when the chain
    of segments after SOI (each not DQT, each declaring a length that
    leaves the floor) leads to a DQT marker followed by two more bytes;
    it then leaves the cursor on that marker, and there is only one such
    position. *)
Theorem seekToDQT_iff_reachable (floor : Z) (p : scratch) (s : list byte)
    (pos : Z) (rs' : ReadSeeker) :
  0 <= floor -> length p = 4%nat ->
  (seekToDQT floor p (mkRS s pos false) = Ok rs' <->
   exists q, dqt_reachable floor s q /\ rs' = mkRS s (Z.of_nat q) false) /\
  (forall q1 q2, dqt_reachable floor s q1 -> dqt_reachable floor s q2 ->
                 q1 = q2).
Proof.
  intros Hfloor Hp. split.
  - split.
    + apply seekToDQT_Ok_inv; assumption.
    + intros (q & Hq & ->). apply seekToDQT_found; assumption.
  - intros q1 q2. apply dqt_reachable_unique; assumption.
Qed.

Lemma seekToDQT_iff_reachable_witness :
  seekToDQT 8 [x00; x00; x00; x00]
    (mkRS [xff; xd8; xff; xe0; x00; x0a; x00; x00; x00; x00; x00; x00;
           x00; x00; xff; xdb; x00; x04; xff; xd9] 5 false)
  = Ok (mkRS [xff; xd8; xff; xe0; x00; x0a; x00; x00; x00; x00; x00; x00;
              x00; x00; xff; xdb; x00; x04; xff; xd9] 14 false).
Proof.
  apply (proj1 (seekToDQT_iff_reachable 8 [x00; x00; x00; x00] _ 5 _
                  ltac:(lia) eq_refl)).
  exists 14%nat. split; [|reflexivity]. split.
  - eapply (scan_skip _ _ 2 14 xff xe0 x00 x0a);
      [reflexivity|discriminate|vm_compute; discriminate|apply scan_stay].
  - exists x00, x04. reflexivity.
Defined.

(** ** When SetMeta succeeds, and with which error it fails *)

Lemma Assert_plain_iff (s : list byte) (pos : Z) (rs' : ReadSeeker) :
  Assert (mkRS s pos false) = Ok rs' <->
  starts_with_soi s /\ ends_with_eoi s /\ rs' = mkRS s (len s) false.
Proof.
  split.
  - intros H. apply Assert_Ok_inv in H. exact H.
  - intros (Hs & He & ->). apply Assert_valid; assumption.
Qed.

Lemma SetMetaRange_Ok_inv (floor : Z) (range : list (Z * list byte))
    (s : list byte) (pos : Z) (md : MetaData) (r : Reader) :
  0 <= floor ->
  SetMetaRange floor range (mkRS s pos false) md = Ok r ->
  starts_with_soi s /\ ends_with_eoi s /\
  exists q, dqt_reachable floor s q /\
    if Z.of_nat (size md) =? 0 then r = MultiReader soi (mkRS s (Z.of_nat q) false)
    else app1_total range (Z.of_nat (size md)) <= 65536 /\
         r = MultiReader (segment range md) (mkRS s (Z.of_nat q) false).
Proof.
  intros Hfloor Hr. rewrite SetMetaRange_eq in Hr.
  destruct (Assert (mkRS s pos false)) as [rs1| | |] eqn:HA; try discriminate.
  apply Assert_Ok_inv in HA. cbn [rs_data rs_eofWithData] in HA.
  destruct HA as (Hs & He & ->). split; [assumption|]. split; [assumption|].
  cbn [mbind outcome_bind] in Hr.
  destruct (Z.of_nat (size md) =? 0).
  - destruct (seekToDQT _ _ _) as [rs2| | |] eqn:Hscan; try discriminate.
    apply seekToDQT_Ok_inv in Hscan; [|assumption|reflexivity].
    destruct Hscan as (q & Hq & ->). injection Hr as <-. eauto.
  - destruct (Z.ltb_spec (1024 * 64) (app1_total range (Z.of_nat (size md))));
      [discriminate|].
    destruct (seekToDQT _ _ _) as [rs2| | |] eqn:Hscan; try discriminate.
    apply seekToDQT_Ok_inv in Hscan; [|assumption|reflexivity].
    destruct Hscan as (q & Hq & ->). injection Hr as <-.
    exists q. split; [assumption|]. split; [lia|reflexivity].
Qed.

(** X6. On an in-memory stream SetMeta returns a reader exactly when the
    stream starts with SOI and ends with EOI, the total APP1 length is at
    most 65536, and the scan reaches a DQT marker at some offset [q].
    The reader then yields SOI (for the empty set) or the new segment,
    followed by the source from [q] on, untouched. *)
Theorem SetMeta_succeeds_iff (range : list (Z * list byte)) (s : list byte)
    (pos : Z) (md : MetaData) (r : Reader) :
  range ≡ₚ map_to_list md ->
  (SetMeta range (mkRS s pos false) md = Ok r <->
   starts_with_soi s /\ ends_with_eoi s /\ app1Len md <= 65536 /\
   exists q, dqt_reachable 8 s q /\
     r = MultiReader (if bool_decide (md = ∅) then soi
                      else segment (map_to_list md) md)
                     (mkRS s (Z.of_nat q) false)) /\
  (SetMeta range (mkRS s pos false) md = Ok r ->
   exists q, dqt_reachable 8 s q /\
     ReadAll r = rd_head r ++ drop q s /\ rs_data (rd_tail r) = s).
Proof.
  intros Hperm.
  assert (Hempty : (Z.of_nat (size md) =? 0) = bool_decide (md = ∅)).
  { case_bool_decide as Hmd.
    - subst md. reflexivity.
    - apply Z.eqb_neq. intros H0. apply Hmd, map_size_empty_inv. lia. }
  assert (Hinv : SetMeta range (mkRS s pos false) md = Ok r ->
    starts_with_soi s /\ ends_with_eoi s /\ app1Len md <= 65536 /\
    exists q, dqt_reachable 8 s q /\
      r = MultiReader (if bool_decide (md = ∅) then soi
                       else segment (map_to_list md) md)
                      (mkRS s (Z.of_nat q) false)).
  { intros Hr. apply SetMetaRange_Ok_inv in Hr; [|lia].
    destruct Hr as (Hs & He & q & Hq & Hform). rewrite Hempty in Hform.
    split; [assumption|]. split; [assumption|].
    case_bool_decide as Hmd.
    - subst md. split; [rewrite app1Len_lower by reflexivity; lia|]. eauto.
    - destruct Hform as [Hcap ->].
      rewrite (app1_total_range range md Hperm) in Hcap.
      rewrite (segment_perm range (map_to_list md) md Hperm).
      split; [assumption|]. eauto. }
  split; [split; [exact Hinv|]|].
  - intros (Hs & He & Hcap & q & Hq & ->). unfold SetMeta.
    rewrite (SetMetaRange_found 8 range s pos md q) by (assumption || lia).
    rewrite Hempty, (app1_total_range range md Hperm).
    case_bool_decide; [reflexivity|].
    destruct (Z.ltb_spec (1024 * 64) (app1Len md)); [lia|].
    rewrite (segment_perm range (map_to_list md) md Hperm). reflexivity.
  - intros Hr. destruct (Hinv Hr) as (_ & _ & _ & q & Hq & ->).
    exists q. split; [assumption|]. unfold ReadAll.
    cbn [rd_head rd_tail rs_pos rs_data]. rewrite Nat2Z.id. auto.
Qed.

Lemma SetMeta_succeeds_iff_witness :
  exists r,
    SetMeta (map_to_list {[MetaArtist := [x41]]})
            (mkRS [xff; xd8; xff; xdb; x00; x04; xff; xd9] 7 false)
            {[MetaArtist := [x41]]} = Ok r /\
    ReadAll r = rd_head r ++ [xff; xdb; x00; x04; xff; xd9].
Proof.
  eexists. split; [vm_compute; reflexivity|].
  match goal with
  | |- ReadAll ?r = _ =>
      destruct (proj2 (SetMeta_succeeds_iff
                  (map_to_list {[MetaArtist := [x41]]})
                  [xff; xd8; xff; xdb; x00; x04; xff; xd9] 7
                  {[MetaArtist := [x41]]} r (reflexivity _)))
        as (q & Hq & Hall & _)
  end.
  - vm_compute. reflexivity.
  - reflexivity.
Defined.

(** X7. The order of the checks in SetMeta: an error of Assert is
    returned as it is, whatever the metadata; with Assert passed, a
    non-empty set whose total exceeds 65536 is rejected with "APP1
    segment is too long" before the stream is scanned, DQT or no DQT; and
    only then does an error of the scan come through. *)
Theorem SetMeta_error_order (range : list (Z * list byte)) (rs : ReadSeeker)
    (md : MetaData) :
  range ≡ₚ map_to_list md ->
  (forall e, Assert rs = Err e -> SetMeta range rs md = Err e) /\
  (forall rs1, Assert rs = Ok rs1 -> md <> ∅ -> 65536 < app1Len md ->
     SetMeta range rs md = Err ErrApp1TooLong) /\
  (forall rs1 e, Assert rs = Ok rs1 -> app1Len md <= 65536 ->
     seekToDQT 8 [x00; x00; x00; x00] rs1 = Err e ->
     SetMeta range rs md = Err e).
Proof.
  intros Hperm. unfold SetMeta. rewrite SetMetaRange_eq.
  rewrite (app1_total_range range md Hperm).
  split; [|split].
  - intros e ->. reflexivity.
  - intros rs1 -> Hne Hbig. cbn [mbind outcome_bind].
    destruct (Z.eqb_spec (Z.of_nat (size md)) 0) as [H0|_].
    { destruct Hne. apply map_size_empty_inv. lia. }
    destruct (Z.ltb_spec (1024 * 64) (app1Len md)); [reflexivity|lia].
  - intros rs1 e -> Hcap Hscan. cbn [mbind outcome_bind]. rewrite Hscan.
    destruct (_ =? 0); [reflexivity|].
    destruct (Z.ltb_spec (1024 * 64) (app1Len md)); [lia|reflexivity].
Qed.

Lemma SetMeta_error_order_witness :
  SetMeta (map_to_list {[MetaArtist := replicate (Z.to_nat 65500) x41]})
          (NewReader [xff; xd8; xff; xd9])
          {[MetaArtist := replicate (Z.to_nat 65500) x41]}
  = Err ErrApp1TooLong.
Proof.
  refine (proj1 (proj2 (SetMeta_error_order
            (map_to_list {[MetaArtist := replicate (Z.to_nat 65500) x41]})
            (NewReader [xff; xd8; xff; xd9])
            {[MetaArtist := replicate (Z.to_nat 65500) x41]}
            (reflexivity _))) (mkRS [xff; xd8; xff; xd9] 4 false) _ _ _).
  - reflexivity.
  - intros H. apply (f_equal (fun m : MetaData => m !! MetaArtist)) in H.
    rewrite lookup_singleton_eq, lookup_empty in H. discriminate.
  - rewrite app1Len_singleton, len_replicate by lia. lia.
Defined.

(** ** The two revisions *)

Lemma scan_steps_snoc (floor : Z) (s : list byte) (a q : nat)
    (b0 b1 b2 b3 : byte) :
  scan_steps floor s a q ->
  take 4 (drop q s) = [b0; b1; b2; b3] -> [b0; b1] <> dqt ->
  floor <= declared_length b2 b3 - 2 ->
  scan_steps floor s a (q + 4 + Z.to_nat (declared_length b2 b3 - 2)).
Proof.
  intros Hsteps Hhdr Hm Hlen.
  induction Hsteps as [pos0|pos0 q0 c0 c1 c2 c3 H1 H2 H3 _ IH].
  - eapply scan_skip; eauto. apply scan_stay.
  - eapply scan_skip; eauto.
Qed.

(** X12. Whatever SetMeta (floor 8) returns a reader for, ReplaceMeta
    (floor 6) returns the same reader for.  The converse fails on
    segments declaring a length of 8 or 9: when the scan of SetMeta
    walks to such a header it fails there with "reported segment length
    too small", while the scan of ReplaceMeta skips the segment and goes
    on. *)
Theorem ReplaceMeta_accepts_more (range : list (Z * list byte))
    (s : list byte) (pos : Z) (md : MetaData) :
  (forall r, SetMeta range (mkRS s pos false) md = Ok r ->
             ReplaceMeta range (mkRS s pos false) md = Ok r) /\
  (forall (q : nat) (b0 b1 b2 b3 : byte),
     scan_steps 8 s 2 q ->
     take 4 (drop q s) = [b0; b1; b2; b3] -> [b0; b1] <> dqt ->
     8 <= declared_length b2 b3 <= 9 ->
     seekToDQT 8 [x00; x00; x00; x00] (mkRS s pos false)
       = Err ErrSegmentTooSmall /\
     scan_steps 6 s 2 (q + 4 + Z.to_nat (declared_length b2 b3 - 2))).
Proof.
  split.
  - intros r Hr. apply SetMetaRange_Ok_inv in Hr; [|lia].
    destruct Hr as (Hs & He & q & Hq & Hform).
    unfold ReplaceMeta.
    rewrite (SetMetaRange_found 6 range s pos md q);
      [|lia|assumption|assumption|eapply dqt_reachable_mono; eauto; lia].
    destruct (_ =? 0); [congruence|].
    destruct Hform as [Hcap ->].
    destruct (Z.ltb_spec (1024 * 64) (app1_total range (Z.of_nat (size md))));
      [lia|reflexivity].
  - intros q b0 b1 b2 b3 Hsteps Hhdr Hm Hlen. split.
    + apply (seekToDQT_stops 8 _ s pos q); [lia|reflexivity|assumption|].
      intros fuel p' Hp'.
      apply (seekLoop_at_small 8 fuel p' s q b0 b1 b2 b3); auto. lia.
    + apply (scan_steps_snoc 6 s 2 q b0 b1 b2 b3); auto; [|lia].
      apply (scan_steps_mono 8 6); [lia|assumption].
Qed.

Lemma ReplaceMeta_accepts_more_witness :
  seekToDQT 8 [x00; x00; x00; x00]
    (mkRS [xff; xd8; xff; xfe; x00; x08; x68; x65; x6c; x6c; x6f; x21;
           xff; xdb; x00; x04; xff; xd9] 0 false) = Err ErrSegmentTooSmall /\
  scan_steps 6 [xff; xd8; xff; xfe; x00; x08; x68; x65; x6c; x6c; x6f; x21;
                xff; xdb; x00; x04; xff; xd9] 2 12.
Proof.
  refine (proj2 (ReplaceMeta_accepts_more [] _ 0 ∅) 2%nat xff xfe x00 x08 _ _ _ _).
  - apply scan_stay.
  - reflexivity.
  - discriminate.
  - vm_compute. split; discriminate.
Defined.

(** ** SetMeta on its own output *)

Lemma values_size_nonneg (range : list (Z * list byte)) : 0 <= values_size range.
Proof.
  induction range as [|[t v] range IH]; [reflexivity|].
  unfold values_size in *. cbn [foldr snd]. pose proof (len_nonneg v). lia.
Qed.

Lemma app1Len_nonempty (md : MetaData) : md <> ∅ -> 36 <= app1Len md.
Proof.
  intros Hne. unfold app1Len, app1_total, ifd0_offset.
  pose proof (values_size_nonneg (map_to_list md)).
  assert (size md <> 0%nat) by (intros H0; apply Hne, map_size_empty_inv, H0).
  change (len exif) with 6. change (len tiff) with 8.
  change (len ifd0Next) with 4. lia.
Qed.

(** The segment is four bytes longer than the total it declares: SOI and
    the APP1 marker come on top. *)
Lemma segment_length (md : MetaData) :
  declared_tags md ->
  len (segment (map_to_list md) md) = app1Len md + 4.
Proof.
  intros Hd. unfold segment. fold (sortedKeys md).
  rewrite !len_app, blob_len_sortedKeys.
  unfold len at 7. rewrite (entries_length md _ _ (declared_sortedKeys md Hd)).
  rewrite sortedKeys_length.
  unfold app1Len, app1_total, ifd0_offset.
  change (len soi) with 2. change (len app1) with 2. change (len exif) with 6.
  change (len tiff) with 8. change (len ifd0Next) with 4.
  change (len segPad) with 2. unfold be16, len at 1 2. cbn [length]. lia.
Qed.

Lemma ends_with_eoi_drop (s : list byte) (q : nat) :
  (q + 2 <= length s)%nat -> ends_with_eoi s -> ends_with_eoi (drop q s).
Proof.
  unfold ends_with_eoi. intros Hq He.
  rewrite drop_drop, length_drop.
  replace (q + (length s - q - 2))%nat with (length s - 2)%nat by lia.
  exact He.
Qed.

Lemma dqt_at_length (s : list byte) (q : nat) :
  dqt_at s q -> (q + 4 <= length s)%nat.
Proof.
  intros (b2 & b3 & H). apply (f_equal length) in H.
  rewrite length_take, length_drop in H. cbn [length] in H. lia.
Qed.

Lemma dqt_at_app (h s : list byte) (q : nat) :
  dqt_at s q -> dqt_at (h ++ drop q s) (length h).
Proof.
  intros (b2 & b3 & H). exists b2, b3. rewrite drop_app_length. exact H.
Qed.

(** The scan finds its way through a segment SetMeta has written. *)
Lemma scan_own_segment (floor : Z) (md : MetaData) (tl : list byte) :
  floor <= 8 -> md <> ∅ -> declared_tags md -> app1Len md <= 65535 ->
  scan_steps floor (segment (map_to_list md) md ++ tl) 2
             (length (segment (map_to_list md) md)).
Proof.
  intros Hfloor Hne Hd Hcap.
  pose proof (app1Len_nonempty md Hne) as Hlow.
  pose proof (segment_length md Hd) as Hlen.
  assert (Hfield : declared_length
                     (byte_of_Z (Z.shiftr (uint16 (app1Len md)) 8))
                     (byte_of_Z (uint16 (app1Len md))) = app1Len md).
  { rewrite declared_length_be16 by apply uint16_range.
    unfold uint16. apply Z.mod_small. change (2 ^ 16) with 65536. lia. }
  eapply (scan_skip floor _ 2 _ xff xe1).
  - reflexivity.
  - discriminate.
  - fold (app1Len md). rewrite Hfield. lia.
  - fold (app1Len md). rewrite Hfield.
    replace (2 + 4 + Z.to_nat (app1Len md - 2))%nat
      with (length (segment (map_to_list md) md))
      by (unfold len in Hlen; lia).
    apply scan_stay.
Qed.

(** The bytes SetMeta hands back, drained. *)
Definition SetMeta_bytes (range : list (Z * list byte)) (rs : ReadSeeker)
    (md : MetaData) : outcome (list byte) :=
  r ← SetMeta range rs md; Ok (ReadAll r).

(** What the scan makes of an output of SetMeta. *)
Lemma output_reachable (range : list (Z * list byte)) (s : list byte)
    (pos : Z) (md : MetaData) (r : Reader) :
  range ≡ₚ map_to_list md -> declared_tags md -> app1Len md <= 65535 ->
  SetMeta range (mkRS s pos false) md = Ok r ->
  exists q,
    dqt_reachable 8 s q /\ ReadAll r = rd_head r ++ drop q s /\
    starts_with_soi (ReadAll r) /\ ends_with_eoi (ReadAll r) /\
    dqt_reachable 8 (ReadAll r) (length (rd_head r)).
Proof.
  intros Hperm Hd Hcap Hr.
  apply SetMetaRange_Ok_inv in Hr; [|lia].
  destruct Hr as (Hs & He & q & Hq & Hform).
  pose proof (dqt_at_length s q (proj2 Hq)) as Hfit.
  exists q. split; [assumption|].
  assert (Hall : ReadAll r = rd_head r ++ drop q s).
  { destruct (_ =? 0); [|destruct Hform as [_ Hform]]; subst r;
      unfold ReadAll; cbn [rd_head rd_tail rs_pos rs_data];
      rewrite Nat2Z.id; reflexivity. }
  split; [exact Hall|]. rewrite Hall.
  assert (Hends : ends_with_eoi (rd_head r ++ drop q s)).
  { apply ends_with_eoi_app; [rewrite length_drop; lia|].
    apply ends_with_eoi_drop; [lia|assumption]. }
  destruct (Z.eqb_spec (Z.of_nat (size md)) 0) as [H0|Hn0].
  - subst r. cbn [rd_head]. split; [reflexivity|]. split; [assumption|].
    split; [apply scan_stay|]. apply (dqt_at_app soi), Hq.
  - destruct Hform as [_ ->]. cbn [rd_head] in *.
    rewrite (segment_perm range (map_to_list md) md Hperm) in *.
    split; [reflexivity|]. split; [assumption|].
    split; [|apply dqt_at_app, Hq].
    apply scan_own_segment; [lia| |assumption|assumption].
    intros ->. apply Hn0. reflexivity.
Qed.

(** X8. SetMeta replaces, it does not pile up.  Take an output of
    SetMeta for a set [md1] of declared tags whose total is at most
    65535 (the empty set included), and run SetMeta on it with any set
    [md2]: the result, bytes or error, is that of running SetMeta with
    [md2] on the original source.  So setting the same metadata twice
    gives the same bytes as setting it once, and stripping after setting
    gives the stripped source. *)
Theorem SetMeta_replaces (range1 range2 : list (Z * list byte))
    (s : list byte) (pos pos' : Z) (md1 md2 : MetaData) (r1 : Reader) :
  range1 ≡ₚ map_to_list md1 -> declared_tags md1 -> app1Len md1 <= 65535 ->
  SetMeta range1 (mkRS s pos false) md1 = Ok r1 ->
  SetMeta_bytes range2 (mkRS (ReadAll r1) pos' false) md2 =
  SetMeta_bytes range2 (mkRS s pos false) md2.
Proof.
  intros Hperm Hd Hcap Hr1.
  pose proof (proj1 (SetMetaRange_Ok_inv 8 _ _ _ _ _ ltac:(lia) Hr1)) as Hs.
  pose proof (proj1 (proj2 (SetMetaRange_Ok_inv 8 _ _ _ _ _ ltac:(lia) Hr1)))
    as He.
  destruct (output_reachable range1 s pos md1 r1 Hperm Hd Hcap Hr1)
    as (q & Hq & Hall & Hs1 & He1 & Hq1).
  unfold SetMeta_bytes, SetMeta.
  rewrite (SetMetaRange_found 8 range2 (ReadAll r1) pos' md2 _)
    by (eassumption || lia).
  rewrite (SetMetaRange_found 8 range2 s pos md2 q) by (assumption || lia).
  assert (Hdrop : drop (length (rd_head r1)) (ReadAll r1) = drop q s)
    by (rewrite Hall; apply drop_app_length).
  destruct (_ =? 0); [|destruct (_ <? _); [reflexivity|]];
    cbn [mbind outcome_bind]; unfold ReadAll at 1 3;
    cbn [rd_head rd_tail rs_pos rs_data]; rewrite !Nat2Z.id, Hdrop;
    reflexivity.
Qed.

Lemma SetMeta_replaces_witness :
  exists r1,
    SetMeta (map_to_list {[MetaArtist := [x41]]})
            (NewReader [xff; xd8; xff; xdb; x00; x04; xff; xd9])
            {[MetaArtist := [x41]]} = Ok r1 /\
    SetMeta_bytes [] (NewReader (ReadAll r1)) ∅ =
    Ok [xff; xd8; xff; xdb; x00; x04; xff; xd9].
Proof.
  eexists. split; [vm_compute; reflexivity|].
  match goal with
  | |- SetMeta_bytes _ (NewReader (ReadAll ?r)) _ = _ =>
      rewrite (SetMeta_replaces (map_to_list {[MetaArtist := [x41]]}) []
                 [xff; xd8; xff; xdb; x00; x04; xff; xd9] 0 0
                 {[MetaArtist := [x41]]} ∅ r)
  end.
  - vm_compute. reflexivity.
  - reflexivity.
  - rewrite <- insert_empty. apply declared_tags_insert; [auto|].
    apply declared_tags_empty.
  - rewrite app1Len_singleton. vm_compute. discriminate.
  - vm_compute. reflexivity.
Defined.

(** X9. The length field of the emitted segment is right.  For a
    non-empty set of declared tags with a total of at most 65535, the
    head SetMeta builds is four bytes longer than the total, the two
    bytes after the APP1 marker read back as the total, and skipping
    them the way the scan does (the total, less two, past the four
    header bytes) leads to the first byte after the segment: the source
    from its DQT marker on. *)
Theorem SetMeta_length_field (range : list (Z * list byte)) (rs : ReadSeeker)
    (md : MetaData) (r : Reader) :
  range ≡ₚ map_to_list md -> md <> ∅ -> declared_tags md ->
  app1Len md <= 65535 -> SetMeta range rs md = Ok r ->
  len (rd_head r) = app1Len md + 4 /\
  Uint16 (take 2 (drop 4 (ReadAll r))) = Ok (app1Len md) /\
  drop (2 + 4 + Z.to_nat (app1Len md - 2)) (ReadAll r) =
    drop (Z.to_nat (rs_pos (rd_tail r))) (rs_data (rd_tail r)).
Proof.
  intros Hperm Hne Hd Hcap Hr.
  destruct (SetMeta_Ok_head 8 range rs md r Hperm Hne Hr) as [Hhead _].
  pose proof (segment_length md Hd) as Hlen. rewrite <- Hhead in Hlen.
  pose proof (app1Len_nonempty md Hne) as Hlow.
  split; [exact Hlen|]. split.
  - unfold ReadAll. rewrite Hhead. unfold segment.
    fold (app1Len md). unfold be16.
    cbn [soi app1 app drop take]. rewrite Uint16_declared.
    rewrite declared_length_be16 by apply uint16_range.
    f_equal. unfold uint16. apply Z.mod_small. change (2 ^ 16) with 65536. lia.
  - unfold ReadAll.
    replace (2 + 4 + Z.to_nat (app1Len md - 2))%nat with (length (rd_head r))
      by (unfold len in Hlen; lia).
    apply drop_app_length.
Qed.

Lemma SetMeta_length_field_witness :
  exists r,
    SetMeta (map_to_list {[MetaArtist := [x41]]})
            (NewReader [xff; xd8; xff; xdb; x00; x04; xff; xd9])
            {[MetaArtist := [x41]]} = Ok r /\
    Uint16 (take 2 (drop 4 (ReadAll r))) = Ok 38.
Proof.
  eexists. split; [vm_compute; reflexivity|].
  match goal with
  | |- Uint16 (take 2 (drop 4 (ReadAll ?r))) = _ =>
      destruct (SetMeta_length_field (map_to_list {[MetaArtist := [x41]]})
                  (NewReader [xff; xd8; xff; xdb; x00; x04; xff; xd9])
                  {[MetaArtist := [x41]]} r) as (_ & Hfield & _)
  end.
  - reflexivity.
  - intros H. apply (f_equal (fun m : MetaData => m !! MetaArtist)) in H.
    rewrite lookup_singleton_eq, lookup_empty in H. discriminate.
  - rewrite <- insert_empty. apply declared_tags_insert; [auto|].
    apply declared_tags_empty.
  - rewrite app1Len_singleton. vm_compute. discriminate.
  - vm_compute. reflexivity.
  - rewrite Hfield, app1Len_singleton. reflexivity.
Defined.

(** X10. What SetMeta returns is a JPEG again as far as Assert can tell:
    the bytes of the reader, for any metadata set and either revision,
    start with SOI and end with EOI, so Assert passes on them. *)
Theorem SetMeta_output_passes_Assert (floor : Z)
    (range : list (Z * list byte)) (s : list byte) (pos pos' : Z)
    (md : MetaData) (r : Reader) :
  floor = 8 \/ floor = 6 ->
  SetMetaRange floor range (mkRS s pos false) md = Ok r ->
  Assert (mkRS (ReadAll r) pos' false) =
    Ok (mkRS (ReadAll r) (len (ReadAll r)) false).
Proof.
  intros Hfloor Hr. apply SetMetaRange_Ok_inv in Hr; [|lia].
  destruct Hr as (Hs & He & q & Hq & Hform).
  pose proof (dqt_at_length s q (proj2 Hq)) as Hfit.
  assert (Hall : ReadAll r = rd_head r ++ drop q s).
  { destruct (_ =? 0); [|destruct Hform as [_ Hform]]; subst r;
      unfold ReadAll; cbn [rd_head rd_tail rs_pos rs_data];
      rewrite Nat2Z.id; reflexivity. }
  apply Assert_valid.
  - rewrite Hall.
    destruct (_ =? 0); [|destruct Hform as [_ Hform]]; subst r; reflexivity.
  - rewrite Hall. apply ends_with_eoi_app; [rewrite length_drop; lia|].
    apply ends_with_eoi_drop; [lia|assumption].
Qed.

Lemma SetMeta_output_passes_Assert_witness :
  exists r,
    SetMeta (map_to_list {[MetaArtist := [x41]]})
            (NewReader [xff; xd8; xff; xdb; x00; x04; xff; xd9])
            {[MetaArtist := [x41]]} = Ok r /\
    succeeds (Assert (NewReader (ReadAll r))).
Proof.
  eexists. split; [vm_compute; reflexivity|].
  eexists. unfold NewReader.
  apply (SetMeta_output_passes_Assert 8
           (map_to_list {[MetaArtist := [x41]]})
           [xff; xd8; xff; xdb; x00; x04; xff; xd9] 0 0 {[MetaArtist := [x41]]});
    [left; reflexivity|vm_compute; reflexivity].
Defined.

(** X11. A source in which DQT comes right after SOI carries no metadata
    segment, and SetMeta with the empty set hands it back byte for
    byte. *)
Theorem SetMeta_empty_identity (range : list (Z * list byte)) (s : list byte)
    (pos : Z) :
  starts_with_soi s -> ends_with_eoi s -> dqt_at s 2 ->
  SetMeta_bytes range (mkRS s pos false) ∅ = Ok s.
Proof.
  intros Hs He Hdqt. unfold SetMeta_bytes, SetMeta.
  rewrite (SetMetaRange_found 8 range s pos ∅ 2);
    [|lia|assumption|assumption|split; [apply scan_stay|assumption]].
  rewrite map_size_empty. change (Z.of_nat 0 =? 0) with true.
  cbn [mbind outcome_bind].
  unfold ReadAll. cbn [rd_head rd_tail rs_pos rs_data]. rewrite Nat2Z.id.
  unfold starts_with_soi in Hs. rewrite <- Hs.
  rewrite take_drop. reflexivity.
Qed.

Lemma SetMeta_empty_identity_witness :
  SetMeta_bytes [] (mkRS [xff; xd8; xff; xdb; x00; x04; xff; xd9] 3 false) ∅ =
  Ok [xff; xd8; xff; xdb; x00; x04; xff; xd9].
Proof.
  apply (SetMeta_empty_identity [] [xff; xd8; xff; xdb; x00; x04; xff; xd9] 3).
  - reflexivity.
  - reflexivity.
  - exists x00, x04. reflexivity.
Defined.

(** * Writing the result to a file *)

(** ** Errors on the way to the file

    WriteFile hands up errors of three origins: those of the reader it
    drains, those of the operating system (path, create, write, close),
    and the wrappers it builds with fmt.Errorf. *)
Inductive ferror : Type :=
  | ReadError (e : error)       (* an error of the reader *)
  | OSError (code : nat)        (* an error of the system *)
  | WithClose (e c : ferror)    (* fmt.Errorf("%w: %v", *err, cErr), [*err] an error *)
  | CloseAlone (c : ferror)     (* the same with [*err] nil *)
  | Jpegutil (e : ferror).      (* fmt.Errorf("jpegutil: %w", err) *)

(** [errors.Is(err, io.EOF)]: the wrappers are looked through along [%w]. *)
Fixpoint Is_EOF (e : ferror) : bool :=
  match e with
  | ReadError e => is_EOF e
  | OSError _ => false
  | WithClose e _ => Is_EOF e
  | CloseAlone _ => false
  | Jpegutil e => Is_EOF e
  end.

Definition errors_Is_EOF (err : option ferror) : bool :=
  match err with
  | Some e => Is_EOF e
  | None => false
  end.

(** ** closeFile

    [err] is the pointer: [None] is the nil pointer, [Some v] points to a
    variable that holds [v].  [cErr] is what [c.Close()] returned.  The
    result is the value of the variable after the call. *)
Definition closeFile (cErr : option ferror) (err : option (option ferror))
  : outcome (option ferror) :=
  match err with
  | None => Panic                 (* [*err = cErr] through the nil pointer *)
  | Some v =>
    match cErr with
    | None => Ok v
    | Some c =>
      Ok (Some match v with Some e => WithClose e c | None => CloseAlone c end)
    end
  end.

(** ** Reading from the composed reader *)

(** The readers io.MultiReader still has to go through. *)
Definition mr_start (r : Reader) : list ReadSeeker :=
  [NewReader (rd_head r); rd_tail r].

Definition is_eof (err : option error) : bool :=
  match err with
  | Some e => is_EOF e
  | None => false
  end.

(** [multiReader.Read]: a reader that reports io.EOF is dropped, and the
    end is reported only when the last one is. *)
Fixpoint mr_Read (readers : list ReadSeeker) (p : list byte)
  : Z * option error * list byte * list ReadSeeker :=
  match readers with
  | [] => (0, Some EOF, p, [])
  | r0 :: rest =>
    let '(n, err, p, r0) := Read r0 p in
    let readers := if is_eof err then rest else r0 :: rest in
    if (0 <? n) || negb (is_eof err) then
      (n,
       if is_eof err && negb (bool_decide (readers = [])) then None else err,
       p, readers)
    else mr_Read rest p
  end.

Section WriteFile.

(** The file system WriteFile runs against.  A file is the bytes written
    to it so far. *)
Variable Abs : list byte -> ferror + list byte.              (* filepath.Abs *)
Variable Create : list byte -> ferror + list byte.           (* os.Create *)
Variable Write : list byte -> list byte -> Z * option ferror * list byte.
Variable Close : list byte -> option ferror.                 (* f.Close *)

(** [teeReader.Read]: what is read is written to the file before it is
    handed on. *)
Definition tee_Read (readers : list ReadSeeker) (f : list byte) (p : list byte)
  : Z * option ferror * list byte * list ReadSeeker * list byte :=
  let '(n, err, p, readers) := mr_Read readers p in
  if 0 <? n then
    let '(wn, werr, f) := Write f (take (Z.to_nat n) p) in
    match werr with
    | Some e => (wn, Some e, p, readers, f)
    | None => (n, ReadError <$> err, p, readers, f)
    end
  else (n, ReadError <$> err, p, readers, f).

(** The loop of the first revision: the count is added up on the last
    turn only. *)
Fixpoint drain1 (fuel : nat) (readers : list ReadSeeker) (f p : list byte)
    (n : Z) : outcome (Z * option ferror * list byte) :=
  match fuel with
  | O => OutOfFuel
  | S fuel =>
    let '(count, err, p, readers, f) := tee_Read readers f p in
    if errors_Is_EOF err then Ok (n + count, None, f)
    else match err with
         | Some e => Ok (n, Some e, f)
         | None => drain1 fuel readers f p n
         end
  end.

(** The loop of the second revision. *)
Fixpoint drain2 (fuel : nat) (readers : list ReadSeeker) (f p : list byte)
    (n : Z) : outcome (Z * option ferror * list byte) :=
  match fuel with
  | O => OutOfFuel
  | S fuel =>
    let '(count, err, p, readers, f) := tee_Read readers f p in
    let n := n + count in
    if errors_Is_EOF err then Ok (n, None, f)
    else match err with
         | Some e => Ok (n, Some (Jpegutil e), f)
         | None => drain2 fuel readers f p n
         end
  end.

(** The bytes the readers still hold. *)
Definition remaining (readers : list ReadSeeker) : list byte :=
  flat_map (fun rs => drop (Z.to_nat (rs_pos rs)) (rs_data rs)) readers.

(** Every turn that goes on has read at least one byte: one turn more
    than there are bytes left is a budget the loops cannot use up. *)
Definition drain_fuel (readers : list ReadSeeker) : nat :=
  S (length (remaining readers)).

(** What WriteFile returns: the count, the error, and the file it has
    made (the path and the bytes in it), if it got that far. *)
Definition written : Type := Z * option ferror * option (list byte * list byte).

(** WriteFile of the first revision. *)
Definition WriteFile1 (name : list byte) (r : Reader) : outcome written :=
  let n := 0 in
  match Abs name with
  | inl e => Ok (n, Some e, None)
  | inr name =>
    match Create name with
    | inl e => Ok (n, Some e, None)
    | inr f =>
      let p := replicate 64 x00 in
      '(n, err, f) ← drain1 (drain_fuel (mr_start r)) (mr_start r) f p n;
      (* deferred: closeFile(f, &err) *)
      err ← closeFile (Close f) (Some err);
      Ok (n, err, Some (name, f))
    end
  end.

(** The extension test of the second revision. *)
Definition dot : byte := x2e.
Definition slash : byte := x2f.
Definition dot_jpg : list byte := [x2e; x6a; x70; x67].
Definition dot_jpeg : list byte := [x2e; x6a; x70; x65; x67].

(** [filepath.Ext]: from the end of the path back to the last separator,
    the suffix that starts at the first dot met. *)
Fixpoint Ext_back (back : list byte) (suffix : list byte) : list byte :=
  match back with
  | [] => []
  | c :: back =>
    if bool_decide (c = slash) then []
    else if bool_decide (c = dot) then c :: suffix
    else Ext_back back (c :: suffix)
  end.

Definition filepath_Ext (path : list byte) : list byte :=
  Ext_back (rev path) [].

(** [strings.TrimRight(s, ".")]. *)
Fixpoint drop_dots (back : list byte) : list byte :=
  match back with
  | [] => []
  | c :: rest => if bool_decide (c = dot) then drop_dots rest else back
  end.

Definition TrimRight_dot (s : list byte) : list byte := rev (drop_dots (rev s)).

(** The name under which the second revision creates the file. *)
Definition jpgName (name : list byte) : list byte :=
  let ext := filepath_Ext name in
  if negb (bytes_Equal ext dot_jpg || bytes_Equal ext dot_jpeg)
  then TrimRight_dot name ++ dot_jpg
  else name.

(** WriteFile of the second revision. *)
Definition WriteFile2 (name : list byte) (r : Reader) : outcome written :=
  let n := 0 in
  let name := jpgName name in
  match Abs name with
  | inl e => Ok (n, Some (Jpegutil e), None)
  | inr name =>
    match Create name with
    | inl e => Ok (n, Some (Jpegutil e), None)
    | inr f =>
      let p := replicate 64 x00 in
      '(n, err, f) ← drain2 (drain_fuel (mr_start r)) (mr_start r) f p n;
      (* deferred: closeFile(f, &err) *)
      err ← closeFile (Close f) (Some err);
      Ok (n, err, Some (name, f))
    end
  end.

End WriteFile.

(** ** Draining the composed reader *)

Definition well_placed (rs : ReadSeeker) : Prop := 0 <= rs_pos rs.
Definition plain (rs : ReadSeeker) : Prop :=
  rs_eofWithData rs = false /\ 0 <= rs_pos rs.

Lemma Read_inside (s : list byte) (pos : Z) (e : bool) (p : list byte) :
  pos < len s ->
  Read (mkRS s pos e) p =
    (Z.of_nat (Nat.min (length p) (length (drop (Z.to_nat pos) s))),
     (if e && (len s <=? pos + Z.of_nat (Nat.min (length p)
                                (length (drop (Z.to_nat pos) s))))
      then Some EOF else None),
     take (Nat.min (length p) (length (drop (Z.to_nat pos) s)))
          (drop (Z.to_nat pos) s) ++
     drop (Nat.min (length p) (length (drop (Z.to_nat pos) s))) p,
     mkRS s (pos + Z.of_nat (Nat.min (length p)
                               (length (drop (Z.to_nat pos) s)))) e).
Proof.
  intros H. unfold Read. cbn [rs_data rs_pos rs_eofWithData].
  destruct (Z.leb_spec (len s) pos); [lia|reflexivity].
Qed.

Lemma remaining_cons (rs : ReadSeeker) (readers : list ReadSeeker) :
  remaining (rs :: readers) =
  drop (Z.to_nat (rs_pos rs)) (rs_data rs) ++ remaining readers.
Proof. reflexivity. Qed.

(** A read from in-memory readers: either nothing is left, or a
    non-empty chunk of what is left comes back with a nil error. *)
Lemma mr_Read_plain (readers : list ReadSeeker) :
  forall p : list byte,
    Forall plain readers -> (0 < length p)%nat ->
    (remaining readers = [] /\ mr_Read readers p = (0, Some EOF, p, [])) \/
    (exists (n : nat) (readers' : list ReadSeeker),
       (0 < n <= length p)%nat /\ (n <= length (remaining readers))%nat /\
       mr_Read readers p =
         (Z.of_nat n, None, take n (remaining readers) ++ drop n p, readers') /\
       Forall plain readers' /\
       remaining readers' = drop n (remaining readers)).
Proof.
  induction readers as [|[s pos e] rest IH]; intros p Hall Hp.
  - left. split; reflexivity.
  - apply Forall_cons in Hall as [[He Hpos] Hrest].
    cbn [rs_eofWithData rs_pos] in He, Hpos. subst e.
    rewrite remaining_cons. cbn [rs_pos rs_data mr_Read].
    destruct (Z_le_gt_dec (len s) pos) as [Hend|Hin].
    + rewrite Read_at_end by assumption.
      rewrite drop_ge by (unfold len in Hend; lia).
      cbn [is_eof is_EOF Z.ltb Z.compare orb negb app].
      replace (is_EOF EOF) with true by reflexivity. cbn [negb orb].
      apply IH; assumption.
    + rewrite Read_inside by lia.
      set (src := drop (Z.to_nat pos) s).
      assert (Hsrc : length src = (length s - Z.to_nat pos)%nat)
        by apply length_drop.
      set (n := Nat.min (length p) (length src)).
      assert (Hn : (0 < n)%nat) by (unfold n, len in *; lia).
      cbn [andb is_eof].
      destruct (Z.ltb_spec 0 (Z.of_nat n)) as [_|Hbad]; [|lia].
      cbn [orb]. right. exists n, (mkRS s (pos + Z.of_nat n) false :: rest).
      split; [unfold n; lia|]. split; [rewrite length_app; unfold n; lia|].
      split; [|split].
      * rewrite take_app_le by (unfold n; lia). reflexivity.
      * constructor; [|assumption]. split; [reflexivity|].
        cbn [rs_pos]. lia.
      * rewrite remaining_cons. cbn [rs_pos rs_data].
        rewrite drop_app_le by (unfold n; lia).
        f_equal. unfold src. rewrite drop_drop. f_equal. lia.
Qed.

Section WriteFileFacts.

Variable Abs : list byte -> ferror + list byte.
Variable Create : list byte -> ferror + list byte.
Variable Write : list byte -> list byte -> Z * option ferror * list byte.
Variable Close : list byte -> option ferror.

(** A file that takes whatever is written to it. *)
Hypothesis Write_appends :
  forall f b : list byte, Write f b = (len b, None, f ++ b).

Lemma tee_Read_plain (readers : list ReadSeeker) (f p : list byte) :
  Forall plain readers -> (0 < length p)%nat ->
  (remaining readers = [] /\
   tee_Read Write readers f p = (0, Some (ReadError EOF), p, [], f)) \/
  (exists (n : nat) (readers' : list ReadSeeker) (p' : list byte),
     (0 < n)%nat /\ (n <= length (remaining readers))%nat /\
     length p' = length p /\
     tee_Read Write readers f p =
       (Z.of_nat n, None, p', readers', f ++ take n (remaining readers)) /\
     Forall plain readers' /\
     remaining readers' = drop n (remaining readers)).
Proof.
  intros Hall Hp. unfold tee_Read.
  destruct (mr_Read_plain readers p Hall Hp)
    as [[Hrem ->]|(n & readers' & Hn & Hle & -> & Hall' & Hrem)].
  - left. auto.
  - right. exists n, readers', (take n (remaining readers) ++ drop n p).
    destruct (Z.ltb_spec 0 (Z.of_nat n)); [|lia].
    rewrite Nat2Z.id, Write_appends.
    rewrite take_app_le by (rewrite length_take; lia).
    rewrite take_take, Nat.min_id.
    split; [lia|]. split; [lia|]. split.
    { rewrite length_app, length_take, length_drop. lia. }
    split; [reflexivity|]. auto.
Qed.

Lemma drain1_plain (fuel : nat) :
  forall (readers : list ReadSeeker) (f p : list byte) (n : Z),
    Forall plain readers -> (0 < length p)%nat ->
    (length (remaining readers) < fuel)%nat ->
    drain1 Write fuel readers f p n = Ok (n, None, f ++ remaining readers).
Proof.
  induction fuel as [|fuel IH]; intros readers f p n Hall Hp Hfuel; [lia|].
  cbn [drain1].
  destruct (tee_Read_plain readers f p Hall Hp)
    as [[Hrem ->]|(k & readers' & p' & Hk & Hle & Hp' & -> & Hall' & Hrem)].
  - cbn. rewrite Hrem, app_nil_r, Z.add_0_r. reflexivity.
  - cbn [errors_Is_EOF].
    rewrite IH by (try assumption; rewrite ?Hrem, ?length_drop; lia).
    rewrite Hrem, <- app_assoc, take_drop. reflexivity.
Qed.

Lemma drain2_plain (fuel : nat) :
  forall (readers : list ReadSeeker) (f p : list byte) (n : Z),
    Forall plain readers -> (0 < length p)%nat ->
    (length (remaining readers) < fuel)%nat ->
    drain2 Write fuel readers f p n =
      Ok (n + len (remaining readers), None, f ++ remaining readers).
Proof.
  induction fuel as [|fuel IH]; intros readers f p n Hall Hp Hfuel; [lia|].
  cbn [drain2].
  destruct (tee_Read_plain readers f p Hall Hp)
    as [[Hrem ->]|(k & readers' & p' & Hk & Hle & Hp' & -> & Hall' & Hrem)].
  - cbn. rewrite Hrem, app_nil_r. reflexivity.
  - cbn [errors_Is_EOF].
    rewrite IH by (try assumption; rewrite ?Hrem, ?length_drop; lia).
    rewrite Hrem, <- app_assoc, take_drop.
    do 3 f_equal. unfold len. rewrite length_drop. lia.
Qed.

Lemma remaining_start (r : Reader) :
  remaining (mr_start r) = ReadAll r.
Proof.
  unfold remaining, mr_start, ReadAll. cbn. rewrite app_nil_r. reflexivity.
Qed.

Lemma plain_start (r : Reader) :
  plain (rd_tail r) -> Forall plain (mr_start r).
Proof.
  intros H. unfold mr_start.
  constructor; [split; [reflexivity|cbn; lia]|].
  constructor; [exact H|constructor].
Qed.

End WriteFileFacts.

(** A read from the composed reader, whatever the kind of its streams:
    the buffer keeps its length, the error is nil or io.EOF, and a nil
    error means that bytes were taken. *)
Lemma mr_Read_progress (readers : list ReadSeeker) :
  forall p : list byte,
    Forall well_placed readers -> (0 < length p)%nat ->
    exists n err p' readers',
      mr_Read readers p = (n, err, p', readers') /\
      length p' = length p /\ Forall well_placed readers' /\
      (err = None \/ err = Some EOF) /\
      (err = None ->
       (length (remaining readers') < length (remaining readers))%nat).
Proof.
  induction readers as [|[s pos e] rest IH]; intros p Hall Hp.
  - exists 0, (Some EOF), p, []. repeat split; auto. discriminate.
  - apply Forall_cons in Hall as [Hpos Hrest].
    unfold well_placed in Hpos. cbn [rs_pos] in Hpos.
    rewrite remaining_cons. cbn [rs_pos rs_data mr_Read].
    destruct (Z_le_gt_dec (len s) pos) as [Hend|Hin].
    + rewrite Read_at_end by assumption.
      rewrite drop_ge by (unfold len in Hend; lia).
      cbn [is_eof Z.ltb Z.compare app].
      replace (is_EOF EOF) with true by reflexivity. cbn [negb orb].
      apply IH; assumption.
    + rewrite Read_inside by lia.
      set (src := drop (Z.to_nat pos) s).
      assert (Hsrc : length src = (length s - Z.to_nat pos)%nat)
        by apply length_drop.
      set (n := Nat.min (length p) (length src)).
      assert (Hn : (0 < n)%nat) by (unfold n, len in *; lia).
      destruct (Z.ltb_spec 0 (Z.of_nat n)) as [_|Hbad]; [|lia].
      cbn [orb].
      assert (Hlen : length (take n src ++ drop n p) = length p).
      { rewrite length_app, length_take, length_drop. unfold n. lia. }
      destruct (e && _).
      * (* the stream reports the end with its last bytes and is dropped *)
        cbn [is_eof]. replace (is_EOF EOF) with true by reflexivity.
        cbn [andb].
        eexists _, _, _, rest. split; [reflexivity|].
        split; [exact Hlen|]. split; [assumption|]. split.
        { destruct (bool_decide (rest = [])); cbn [negb]; auto. }
        intros _. rewrite length_app. lia.
      * cbn [is_eof andb].
        eexists _, _, _, (mkRS s (pos + Z.of_nat n) e :: rest).
        split; [reflexivity|]. split; [exact Hlen|].
        split; [constructor; [unfold well_placed; cbn [rs_pos]; lia|assumption]|].
        split; [auto|]. intros _.
        rewrite remaining_cons, !length_app. cbn [rs_pos rs_data].
        rewrite length_drop. unfold n, len in *. lia.
Qed.

Section WriteFileReturns.

Variable Abs : list byte -> ferror + list byte.
Variable Create : list byte -> ferror + list byte.
Variable Write : list byte -> list byte -> Z * option ferror * list byte.
Variable Close : list byte -> option ferror.

Lemma tee_Read_progress (readers : list ReadSeeker) (f p : list byte) :
  Forall well_placed readers -> (0 < length p)%nat ->
  exists n err p' readers' f',
    tee_Read Write readers f p = (n, err, p', readers', f') /\
    length p' = length p /\ Forall well_placed readers' /\
    (err = None ->
     (length (remaining readers') < length (remaining readers))%nat).
Proof.
  intros Hall Hp. unfold tee_Read.
  destruct (mr_Read_progress readers p Hall Hp)
    as (n & err & p' & readers' & -> & Hlen & Hall' & Herr & Hless).
  destruct (0 <? n).
  - destruct (Write f (take (Z.to_nat n) p')) as [[wn [we|]] f'].
    + eexists _, _, _, _, _. split; [reflexivity|].
      repeat split; auto. discriminate.
    + eexists _, _, _, _, _. split; [reflexivity|].
      repeat split; auto. intros H. apply Hless.
      destruct err; [discriminate|reflexivity].
  - eexists _, _, _, _, _. split; [reflexivity|].
    repeat split; auto. intros H. apply Hless.
    destruct err; [discriminate|reflexivity].
Qed.

Lemma drain1_returns (fuel : nat) :
  forall (readers : list ReadSeeker) (f p : list byte) (n : Z),
    Forall well_placed readers -> (0 < length p)%nat ->
    (length (remaining readers) < fuel)%nat ->
    exists w, drain1 Write fuel readers f p n = Ok w.
Proof.
  induction fuel as [|fuel IH]; intros readers f p n Hall Hp Hfuel; [lia|].
  cbn [drain1].
  destruct (tee_Read_progress readers f p Hall Hp)
    as (k & err & p' & readers' & f' & -> & Hlen & Hall' & Hless).
  destruct (errors_Is_EOF err); [eauto|].
  destruct err as [e|]; [eauto|].
  apply IH; [assumption|lia|]. specialize (Hless eq_refl). lia.
Qed.

Lemma drain2_returns (fuel : nat) :
  forall (readers : list ReadSeeker) (f p : list byte) (n : Z),
    Forall well_placed readers -> (0 < length p)%nat ->
    (length (remaining readers) < fuel)%nat ->
    exists w, drain2 Write fuel readers f p n = Ok w.
Proof.
  induction fuel as [|fuel IH]; intros readers f p n Hall Hp Hfuel; [lia|].
  cbn [drain2].
  destruct (tee_Read_progress readers f p Hall Hp)
    as (k & err & p' & readers' & f' & -> & Hlen & Hall' & Hless).
  destruct (errors_Is_EOF err); [eauto|].
  destruct err as [e|]; [eauto|].
  apply IH; [assumption|lia|]. specialize (Hless eq_refl). lia.
Qed.

End WriteFileReturns.

Lemma well_placed_start (r : Reader) :
  well_placed (rd_tail r) -> Forall well_placed (mr_start r).
Proof.
  intros H. unfold mr_start.
  constructor; [unfold well_placed; cbn; lia|].
  constructor; [exact H|constructor].
Qed.

(** What a call of WriteFile has to show for itself: it returned, the
    error is non-nil when closing the file failed, and when no file was
    made the count is 0 and the error non-nil. *)
Definition accounted (Close : list byte -> option ferror)
    (o : outcome written) : Prop :=
  exists (n : Z) (err : option ferror) (file : option (list byte * list byte)),
    o = Ok (n, err, file) /\
    (forall path f, file = Some (path, f) -> Close f <> None -> err <> None) /\
    (file = None -> n = 0 /\ err <> None).

(** X15. On the reader SetMeta builds over an in-memory stream (a
    finite head and a finite stream with its cursor at or past 0),
    WriteFile, in either revision, returns, in any file system: the loop
    ends and the deferred closeFile is never handed a nil pointer, so
    nothing panics.  (A reader that never reports io.EOF or an error is
    outside this statement: on such a reader the loop does not end.)  A failing Close always makes the returned error non-nil,
    also after a complete write; and when the path cannot be resolved or
    the file cannot be created, no file is made, the count is 0 and the
    error is non-nil. *)
Theorem WriteFile_returns
    (Abs Create : list byte -> ferror + list byte)
    (Write : list byte -> list byte -> Z * option ferror * list byte)
    (Close : list byte -> option ferror)
    (name : list byte) (r : Reader) :
  well_placed (rd_tail r) ->
  accounted Close (WriteFile1 Abs Create Write Close name r) /\
  accounted Close (WriteFile2 Abs Create Write Close name r).
Proof.
  intros Hwell.
  pose proof (well_placed_start r Hwell) as Hstart.
  assert (H64 : (0 < length (replicate 64 x00))%nat)
    by (rewrite length_replicate; lia).
  unfold accounted, WriteFile1, WriteFile2. split.
  - destruct (Abs name) as [e|path].
    { eexists _, _, _. split; [reflexivity|].
      split; [discriminate|]. intros _. split; [reflexivity|discriminate]. }
    destruct (Create path) as [e|f].
    { eexists _, _, _. split; [reflexivity|].
      split; [discriminate|]. intros _. split; [reflexivity|discriminate]. }
    destruct (drain1_returns Write (drain_fuel (mr_start r)) (mr_start r) f
                (replicate 64 x00) 0 Hstart H64 ltac:(unfold drain_fuel; lia))
      as ([[n err] f'] & ->).
    cbn [mbind outcome_bind closeFile].
    destruct (Close f') as [c|] eqn:Hc; cbn [mbind outcome_bind].
    + eexists _, _, _. split; [reflexivity|].
      split; [discriminate|discriminate].
    + eexists _, _, _. split; [reflexivity|].
      split; [|discriminate]. intros path' f'' [= <- <-] Hbad. congruence.
  - destruct (Abs (jpgName name)) as [e|path].
    { eexists _, _, _. split; [reflexivity|].
      split; [discriminate|]. intros _. split; [reflexivity|discriminate]. }
    destruct (Create path) as [e|f].
    { eexists _, _, _. split; [reflexivity|].
      split; [discriminate|]. intros _. split; [reflexivity|discriminate]. }
    destruct (drain2_returns Write (drain_fuel (mr_start r)) (mr_start r) f
                (replicate 64 x00) 0 Hstart H64 ltac:(unfold drain_fuel; lia))
      as ([[n err] f'] & ->).
    cbn [mbind outcome_bind closeFile].
    destruct (Close f') as [c|] eqn:Hc; cbn [mbind outcome_bind].
    + eexists _, _, _. split; [reflexivity|].
      split; [discriminate|discriminate].
    + eexists _, _, _. split; [reflexivity|].
      split; [|discriminate]. intros path' f'' [= <- <-] Hbad. congruence.
Qed.

Lemma WriteFile_returns_witness :
  accounted (fun _ => Some (OSError 5))
    (WriteFile2 inr (fun _ => inr []) (fun f b => (len b, None, f ++ b))
                (fun _ => Some (OSError 5)) [x61]
                (MultiReader soi (mkRS [xff; xd8; xff; xdb; x00; x04; xff; xd9]
                                       2 false))).
Proof.
  apply (WriteFile_returns inr (fun _ => inr [])
           (fun f b => (len b, None, f ++ b)) (fun _ => Some (OSError 5))).
  unfold well_placed. cbn. lia.
Defined.

(** X13. WriteFile of the second revision, on a file that takes what is
    written to it: the file ends up holding exactly the bytes of the
    reader, in order, and the count returned is their number.  The
    error is nil unless closing the file fails. *)
Theorem WriteFile2_writes_all
    (Abs Create : list byte -> ferror + list byte)
    (Write : list byte -> list byte -> Z * option ferror * list byte)
    (Close : list byte -> option ferror)
    (name path : list byte) (r : Reader) :
  (forall f b : list byte, Write f b = (len b, None, f ++ b)) ->
  Abs (jpgName name) = inr path -> Create path = inr [] ->
  plain (rd_tail r) ->
  WriteFile2 Abs Create Write Close name r =
    Ok (len (ReadAll r),
        match Close (ReadAll r) with
        | Some c => Some (CloseAlone c)
        | None => None
        end,
        Some (path, ReadAll r)).
Proof.
  intros Hw Habs Hcreate Hplain. unfold WriteFile2. rewrite Habs, Hcreate.
  rewrite (drain2_plain Write Hw); cycle 1.
  - apply plain_start, Hplain.
  - rewrite length_replicate. lia.
  - unfold drain_fuel. lia.
  - rewrite remaining_start. cbn [mbind outcome_bind app closeFile Z.add].
    destruct (Close (ReadAll r)); reflexivity.
Qed.

Lemma WriteFile2_writes_all_witness :
  WriteFile2 inr (fun _ => inr []) (fun f b => (len b, None, f ++ b))
             (fun _ => None) [x61]
             (MultiReader soi (mkRS [xff; xd8; xff; xdb; x00; x04; xff; xd9]
                                    2 false)) =
  Ok (8, None, Some ([x61; x2e; x6a; x70; x67],
                     [xff; xd8; xff; xdb; x00; x04; xff; xd9])).
Proof.
  apply (WriteFile2_writes_all inr (fun _ => inr [])
           (fun f b => (len b, None, f ++ b)) (fun _ => None) [x61]
           [x61; x2e; x6a; x70; x67]).
  - reflexivity.
  - reflexivity.
  - reflexivity.
  - split; [reflexivity|cbn; lia].
Defined.

(** X14. WriteFile of the first revision writes the same file, but the
    count it returns is not the number of bytes written: [n] is only
    added to on the turn that sees io.EOF, and an in-memory reader
    reports io.EOF with a read of 0 bytes, so the count is 0 whatever
    the size of the file. *)
Theorem WriteFile1_count_is_zero
    (Abs Create : list byte -> ferror + list byte)
    (Write : list byte -> list byte -> Z * option ferror * list byte)
    (Close : list byte -> option ferror)
    (name path : list byte) (r : Reader) :
  (forall f b : list byte, Write f b = (len b, None, f ++ b)) ->
  Abs name = inr path -> Create path = inr [] ->
  plain (rd_tail r) ->
  WriteFile1 Abs Create Write Close name r =
    Ok (0,
        match Close (ReadAll r) with
        | Some c => Some (CloseAlone c)
        | None => None
        end,
        Some (path, ReadAll r)).
Proof.
  intros Hw Habs Hcreate Hplain. unfold WriteFile1. rewrite Habs, Hcreate.
  rewrite (drain1_plain Write Hw); cycle 1.
  - apply plain_start, Hplain.
  - rewrite length_replicate. lia.
  - unfold drain_fuel. lia.
  - rewrite remaining_start. cbn [mbind outcome_bind app closeFile].
    destruct (Close (ReadAll r)); reflexivity.
Qed.

Lemma WriteFile1_count_is_zero_witness :
  WriteFile1 inr (fun _ => inr []) (fun f b => (len b, None, f ++ b))
             (fun _ => None) [x61]
             (MultiReader soi (mkRS [xff; xd8; xff; xdb; x00; x04; xff; xd9]
                                    2 false)) =
  Ok (0, None, Some ([x61], [xff; xd8; xff; xdb; x00; x04; xff; xd9])).
Proof.
  apply (WriteFile1_count_is_zero inr (fun _ => inr [])
           (fun f b => (len b, None, f ++ b)) (fun _ => None) [x61] [x61]).
  - reflexivity.
  - reflexivity.
  - reflexivity.
  - split; [reflexivity|cbn; lia].
Defined.

(** ** The file name of the second revision *)

Lemma Ext_of_dot_jpg (stem : list byte) :
  filepath_Ext (stem ++ dot_jpg) = dot_jpg.
Proof.
  unfold filepath_Ext, dot_jpg. rewrite rev_app_distr. reflexivity.
Qed.

Lemma Ext_back_suffix (back : list byte) :
  forall suffix : list byte,
    Ext_back back suffix = [] \/
    exists front, rev back ++ suffix = front ++ Ext_back back suffix.
Proof.
  induction back as [|c back IH]; intros suffix; [left; reflexivity|].
  cbn [Ext_back rev].
  destruct (bool_decide (c = slash)); [left; reflexivity|].
  destruct (bool_decide (c = dot)).
  - right. exists (rev back). rewrite <- app_assoc. reflexivity.
  - destruct (IH (c :: suffix)) as [H|[front H]]; [left; exact H|].
    right. exists front. rewrite <- app_assoc. exact H.
Qed.

(** X16. The name under which the second revision creates the file
    always has the extension ".jpg" or ".jpeg", and ends with it: a name
    that already has one of the two is taken as it is, any other name
    loses its trailing dots and gets ".jpg" appended (the comparison is
    by bytes, so ".JPG" is another extension).  Applying the rule to its
    own result changes nothing. *)
Theorem jpgName_extension (name : list byte) :
  (filepath_Ext (jpgName name) = dot_jpg \/
   filepath_Ext (jpgName name) = dot_jpeg) /\
  (exists stem, jpgName name = stem ++ dot_jpg \/
                jpgName name = stem ++ dot_jpeg) /\
  (filepath_Ext name = dot_jpg \/ filepath_Ext name = dot_jpeg ->
   jpgName name = name) /\
  (filepath_Ext name <> dot_jpg -> filepath_Ext name <> dot_jpeg ->
   jpgName name = TrimRight_dot name ++ dot_jpg) /\
  jpgName (jpgName name) = jpgName name.
Proof.
  assert (Hcases :
    (filepath_Ext name = dot_jpg \/ filepath_Ext name = dot_jpeg) /\
      jpgName name = name \/
    (filepath_Ext name <> dot_jpg /\ filepath_Ext name <> dot_jpeg) /\
      jpgName name = TrimRight_dot name ++ dot_jpg).
  { unfold jpgName, bytes_Equal. repeat case_bool_decide; cbn [orb negb]; auto. }
  assert (Hext : filepath_Ext (jpgName name) = dot_jpg \/
                 filepath_Ext (jpgName name) = dot_jpeg).
  { destruct Hcases as [[H ->]|[_ ->]]; [exact H|].
    left. apply Ext_of_dot_jpg. }
  split; [exact Hext|]. split; [|split; [|split]].
  - destruct (Ext_back_suffix (rev (jpgName name)) []) as [H|[front H]].
    + fold (filepath_Ext (jpgName name)) in H.
      destruct Hext as [E|E]; rewrite E in H; discriminate.
    + rewrite rev_involutive, app_nil_r in H.
      fold (filepath_Ext (jpgName name)) in H.
      exists front. destruct Hext as [E|E]; rewrite E in H; auto.
  - intros H. destruct Hcases as [[_ E]|[[H1 H2] _]]; [exact E|tauto].
  - intros H1 H2. destruct Hcases as [[[E|E] _]|[_ E]]; [tauto|tauto|exact E].
  - unfold jpgName at 1. unfold bytes_Equal.
    destruct Hext as [E|E]; rewrite E; reflexivity.
Qed.

(** ** From SetMeta to the file *)

Lemma SetMeta_output_markers (floor : Z) (range : list (Z * list byte))
    (s : list byte) (pos : Z) (md : MetaData) (r : Reader) :
  0 <= floor ->
  SetMetaRange floor range (mkRS s pos false) md = Ok r ->
  exists q, dqt_reachable floor s q /\
    rd_tail r = mkRS s (Z.of_nat q) false /\
    ReadAll r = rd_head r ++ drop q s /\
    starts_with_soi (ReadAll r) /\ ends_with_eoi (ReadAll r).
Proof.
  intros Hfloor Hr. apply SetMetaRange_Ok_inv in Hr; [|assumption].
  destruct Hr as (Hs & He & q & Hq & Hform).
  pose proof (dqt_at_length s q (proj2 Hq)) as Hfit.
  exists q. split; [assumption|].
  assert (Htail : rd_tail r = mkRS s (Z.of_nat q) false).
  { destruct (_ =? 0); [|destruct Hform as [_ Hform]]; subst r; reflexivity. }
  split; [exact Htail|].
  assert (Hall : ReadAll r = rd_head r ++ drop q s).
  { unfold ReadAll. rewrite Htail. cbn [rs_pos rs_data].
    rewrite Nat2Z.id. reflexivity. }
  split; [exact Hall|]. rewrite Hall. split.
  - destruct (_ =? 0); [|destruct Hform as [_ Hform]]; subst r; reflexivity.
  - apply ends_with_eoi_app; [rewrite length_drop; lia|].
    apply ends_with_eoi_drop; [lia|assumption].
Qed.

(** X17. SetMeta and WriteFile together.  When SetMeta returns a reader
    for an in-memory source and the file system does its part (the path
    resolves, the file is created empty, takes what is written and
    closes), WriteFile of the second revision returns a nil error and
    the size of the file, and the file holds the new head followed by
    the source from its DQT marker on: bytes that Assert accepts. *)
Theorem SetMeta_then_WriteFile
    (Abs Create : list byte -> ferror + list byte)
    (Write : list byte -> list byte -> Z * option ferror * list byte)
    (Close : list byte -> option ferror)
    (range : list (Z * list byte)) (s : list byte) (pos : Z) (md : MetaData)
    (r : Reader) (name path : list byte) :
  (forall f b : list byte, Write f b = (len b, None, f ++ b)) ->
  (forall f : list byte, Close f = None) ->
  Abs (jpgName name) = inr path -> Create path = inr [] ->
  SetMeta range (mkRS s pos false) md = Ok r ->
  exists q,
    dqt_reachable 8 s q /\
    WriteFile2 Abs Create Write Close name r =
      Ok (len (rd_head r) + (len s - Z.of_nat q), None,
          Some (path, rd_head r ++ drop q s)) /\
    succeeds (Assert (NewReader (rd_head r ++ drop q s))).
Proof.
  intros Hw Hc Habs Hcreate Hr.
  destruct (SetMeta_output_markers 8 range s pos md r ltac:(lia) Hr)
    as (q & Hq & Htail & Hall & Hs & He).
  pose proof (dqt_at_length s q (proj2 Hq)) as Hfit.
  exists q. split; [assumption|]. split.
  - unfold WriteFile2. rewrite Habs, Hcreate.
    rewrite (drain2_plain Write Hw); cycle 1.
    + apply plain_start. rewrite Htail. split; [reflexivity|cbn; lia].
    + rewrite length_replicate. lia.
    + unfold drain_fuel. lia.
    + rewrite remaining_start, Hall.
      cbn [mbind outcome_bind app closeFile Z.add]. rewrite Hc.
      cbn [mbind outcome_bind].
      do 3 f_equal. rewrite len_app. unfold len. rewrite length_drop. lia.
  - rewrite <- Hall. eexists. apply Assert_valid; assumption.
Qed.

Lemma SetMeta_then_WriteFile_witness :
  exists r,
    SetMeta (map_to_list {[MetaArtist := [x41]]})
            (NewReader [xff; xd8; xff; xdb; x00; x04; xff; xd9])
            {[MetaArtist := [x41]]} = Ok r /\
    WriteFile2 inr (fun _ => inr []) (fun f b => (len b, None, f ++ b))
               (fun _ => None) [x61] r =
      Ok (48, None,
          Some ([x61; x2e; x6a; x70; x67],
                rd_head r ++ [xff; xdb; x00; x04; xff; xd9])).
Proof.
  eexists. split; [vm_compute; reflexivity|].
  match goal with
  | |- WriteFile2 _ _ _ _ _ ?r = _ =>
      destruct (SetMeta_then_WriteFile inr (fun _ => inr [])
                  (fun f b => (len b, None, f ++ b)) (fun _ => None)
                  (map_to_list {[MetaArtist := [x41]]})
                  [xff; xd8; xff; xdb; x00; x04; xff; xd9] 0
                  {[MetaArtist := [x41]]} r [x61] [x61; x2e; x6a; x70; x67])
        as (q & Hq & Hw & _)
  end.
  - reflexivity.
  - reflexivity.
  - reflexivity.
  - reflexivity.
  - vm_compute. reflexivity.
  - assert (q = 2%nat) as ->.
    { apply (dqt_reachable_unique 8 [xff; xd8; xff; xdb; x00; x04; xff; xd9]);
        [lia|exact Hq|].
      split; [apply scan_stay|]. exists x00, x04. reflexivity. }
    exact Hw.
Defined.
